(** * Tic-Tac-Toe in the terminal: the game engine of [main.py]

    A shallow embedding of the engine ([Player], [Board], [Game], the
    [dbopen] context manager and the two tables of the store) together
    with the properties of the engine that the specification states.

    Conventions of the embedding.
    - A Python [str] is a [string] whose characters are read as the code
      points U+0000 to U+00FF.  The builtins [str.lower], [str.isdigit],
      [str.title], [str.isspace] and [int] follow CPython on that block.
      The two letters of the block whose capital lies outside of it
      (U+00B5 and U+00FF) are left as they are by [title]; the limit that
      recent interpreters put on the number of digits [int] accepts is not
      modelled.
    - Python objects that are shared and mutated (the two [Player]
      objects) live in a heap and are named by references.
    - Exceptions are values of [exn]; a computation that can raise returns
      a [result].
    - Output to the terminal is not part of the model. *)

From Stdlib Require Import ZArith Ascii String List Lia.
From stdpp Require Import base decidable option list sorting gmap strings.

Set Warnings "-register-all".
Local Open Scope Z_scope.

(** ** Python strings *)

Module PyStr.

Definition code (c : ascii) : N := N_of_ascii c.

Definition between (lo hi n : N) : bool := ((lo <=? n) && (n <=? hi))%N.

(** Characters with a lowercase mapping: A-Z and U+00C0-U+00DE without
    the multiplication sign U+00D7. *)
Definition has_lower (c : ascii) : bool :=
  let n := code c in
  between 65 90 n || (between 192 222 n && negb (n =? 215)%N).

(** Characters with a one-character titlecase mapping inside the block:
    a-z and U+00E0-U+00FE without the division sign U+00F7. *)
Definition has_upper (c : ascii) : bool :=
  let n := code c in
  between 97 122 n || (between 224 254 n && negb (n =? 247)%N).

(** The property Cased of the Unicode database, on the block. *)
Definition is_cased (c : ascii) : bool :=
  let n := code c in
  has_lower c || has_upper c
  || (n =? 170)%N || (n =? 181)%N || (n =? 186)%N
  || (n =? 223)%N || (n =? 255)%N.

Definition lower_char (c : ascii) : ascii :=
  if has_lower c then ascii_of_N (code c + 32) else c.

(** Titlecase of one character; U+00DF becomes the two letters "Ss". *)
Definition title_char (c : ascii) : string :=
  if (code c =? 223)%N then "Ss"%string
  else if has_upper c then String (ascii_of_N (code c - 32)) EmptyString
  else String c EmptyString.

(** [str.lower] *)
Fixpoint lower (s : string) : string :=
  match s with
  | EmptyString => EmptyString
  | String c rest => String (lower_char c) (lower rest)
  end.

(** [str.title]: a character that follows a cased character is
    lowercased, any other character is titlecased. *)
Fixpoint title_from (previous_is_cased : bool) (s : string) : string :=
  match s with
  | EmptyString => EmptyString
  | String c rest =>
      ((if previous_is_cased then String (lower_char c) EmptyString
        else title_char c)
       +:+ title_from (is_cased c) rest)%string
  end.

Definition title (s : string) : string := title_from false s.

(** The decimal digits 0-9. *)
Definition is_decimal_char (c : ascii) : bool := between 48 57 (code c).

(** Characters for which [str.isdigit] holds: the decimal digits and
    the superscripts U+00B2, U+00B3 and U+00B9. *)
Definition is_digit_char (c : ascii) : bool :=
  let n := code c in
  is_decimal_char c || (n =? 178)%N || (n =? 179)%N || (n =? 185)%N.

Fixpoint all_chars (f : ascii -> bool) (s : string) : bool :=
  match s with
  | EmptyString => true
  | String c rest => f c && all_chars f rest
  end.

(** [str.isdigit]: at least one character, and all of them digits. *)
Definition isdigit (s : string) : bool :=
  match s with
  | EmptyString => false
  | _ => all_chars is_digit_char s
  end.

(** [bool(s)]: a string is true when it is not empty. *)
Definition truthy (s : string) : bool :=
  match s with
  | EmptyString => false
  | _ => true
  end.

(** Characters for which [str.isspace] holds. *)
Definition is_space_char (c : ascii) : bool :=
  let n := code c in
  between 9 13 n || between 28 32 n || (n =? 133)%N || (n =? 160)%N.

Fixpoint lstrip (s : string) : string :=
  match s with
  | EmptyString => EmptyString
  | String c rest => if is_space_char c then lstrip rest else s
  end.

Fixpoint rstrip (s : string) : string :=
  match s with
  | EmptyString => EmptyString
  | String c rest =>
      match rstrip rest with
      | EmptyString => if is_space_char c then EmptyString
                       else String c EmptyString
      | rest' => String c rest'
      end
  end.

(** [str.strip]; the engine never calls it, the specification speaks of
    it ("trimmed"). *)
Definition strip (s : string) : string := rstrip (lstrip s).

Definition digit_value (c : ascii) : Z := Z.of_N (code c) - 48.

Fixpoint decimal_value (acc : Z) (s : string) : Z :=
  match s with
  | EmptyString => acc
  | String c rest => decimal_value (10 * acc + digit_value c) rest
  end.

End PyStr.

(** ** Exceptions and results *)

Inductive exn : Type :=
| ValueError
| EOFError
| IndexError
| StopIteration
| IntegrityError.

Inductive result (A : Type) : Type :=
| Ok (a : A)
| Raise (e : exn).
Arguments Ok {A} a.
Arguments Raise {A} e.

Definition bind {A B} (r : result A) (k : A -> result B) : result B :=
  match r with
  | Ok a => k a
  | Raise e => Raise e
  end.

#[global] Instance result_ret : MRet result := fun _ a => Ok a.
#[global] Instance result_bind : MBind result := fun _ _ k r => bind r k.

(** [int(s)] on the strings the move guard lets through (all characters
    satisfy [isdigit]): the value of a string of decimal digits, and
    [ValueError] for anything else. *)
Definition int (s : string) : result Z :=
  match s with
  | EmptyString => Raise ValueError
  | _ => if PyStr.all_chars PyStr.is_decimal_char s
         then Ok (PyStr.decimal_value 0 s)
         else Raise ValueError
  end.

(** ** Python values returned by [check_winner] *)

Inductive pyval : Type :=
| VNone
| VBool (b : bool)
| VInt (z : Z)
| VTuple (items : list pyval).

(** Truth value of a Python object, as [if winner:] tests it. *)
Definition truthy (v : pyval) : bool :=
  match v with
  | VNone => false
  | VBool b => b
  | VInt z => negb (z =? 0)
  | VTuple items => match items with [] => false | _ => true end
  end.

(** [v[i]] on a tuple. *)
Definition getitem (v : pyval) (i : nat) : option pyval :=
  match v with
  | VTuple items => items !! i
  | _ => None
  end.

Definition tuple_of (combo : list Z) : pyval := VTuple (VInt <$> combo).

(** ** Players *)

(** The two marker strings, [blueify(boldify("X"))] and
    [redify(boldify("O"))]. *)
Inductive Marker : Type := MarkX | MarkO.

#[global] Instance Marker_eq_dec : EqDecision Marker.
Proof. solve_decision. Defined.

Record Player : Type := mkPlayer {
  name : string;
  marker : Marker;
  moves : list Z;
  score : Z
}.

(** [Player.__init__] *)
Definition Player_init (raw_name : string) (m : Marker) : Player :=
  {| name := PyStr.title raw_name; marker := m; moves := []; score := 0 |}.

(** [Player.add_move]: append, then sort. *)
Definition Player_add_move (p : Player) (move : Z) : Player :=
  {| name := name p; marker := marker p;
     moves := merge_sort Z.le (moves p ++ [move]);
     score := score p |}.

(** [Player.reset_moves] *)
Definition Player_reset_moves (p : Player) : Player :=
  {| name := name p; marker := marker p; moves := []; score := score p |}.

Definition set_marker (p : Player) (m : Marker) : Player :=
  {| name := name p; marker := m; moves := moves p; score := score p |}.

Definition incr_score (p : Player) : Player :=
  {| name := name p; marker := marker p; moves := moves p;
     score := score p + 1 |}.

(** ** Winning combinations and [Board.check_winner] *)

Definition winning_combos : list (list Z) :=
  [ [1; 2; 3]; [4; 5; 6]; [7; 8; 9];
    [1; 4; 7]; [2; 5; 8]; [3; 6; 9];
    [1; 5; 9]; [3; 5; 7] ].

(** [all(move in player.moves for move in combo)] *)
Definition all_in (combo : list Z) (claimed : list Z) : bool :=
  forallb (fun move => bool_decide (move ∈ claimed)) combo.

(** The loop of [check_winner] over the combinations still to try. *)
Fixpoint check_combos (combos : list (list Z)) (claimed : list Z) : pyval :=
  match combos with
  | [] => VBool false
  | combo :: rest =>
      if all_in combo claimed
      then VTuple [VBool true; tuple_of combo]
      else check_combos rest claimed
  end.

Definition check_winner (p : Player) : pyval :=
  check_combos winning_combos (moves p).

(** ** The two [Player] objects of a session *)

(** [main] creates two [Player] objects, [player1] and [player2]; every
    [Game] of the session holds references to them. *)
Inductive PlayerRef : Type := player1 | player2.

#[global] Instance PlayerRef_eq_dec : EqDecision PlayerRef.
Proof. solve_decision. Defined.

Record Heap : Type := mkHeap { obj1 : Player; obj2 : Player }.

Definition deref (h : Heap) (r : PlayerRef) : Player :=
  match r with player1 => obj1 h | player2 => obj2 h end.

Definition assign (h : Heap) (r : PlayerRef) (p : Player) : Heap :=
  match r with
  | player1 => {| obj1 := p; obj2 := obj2 h |}
  | player2 => {| obj1 := obj1 h; obj2 := p |}
  end.

Definition other (r : PlayerRef) : PlayerRef :=
  match r with player1 => player2 | player2 => player1 end.

(** ** The board *)

(** [Board.add_move]: the dictionary is written and the player's list
    extended only when the cell is not yet a key. *)
Definition Board_add_move (b : gmap Z Marker) (h : Heap) (move : Z)
    (r : PlayerRef) : bool * gmap Z Marker * Heap :=
  match b !! move with
  | Some _ => (false, b, h)
  | None =>
      (true, <[move := marker (deref h r)]> b,
       assign h r (Player_add_move (deref h r) move))
  end.

(** [Board.is_full] *)
Definition is_full (b : gmap Z Marker) : bool := bool_decide (size b = 9%nat).

(** What [Board.draw] shows in cell [i]: the marker, or the index. *)
Definition cell_view (b : gmap Z Marker) (i : Z) : Marker + Z :=
  match b !! i with
  | Some m => inl m
  | None => inr i
  end.

(** ** The store *)

Record HistoryRow : Type := mkHistoryRow {
  h_player1 : string;
  h_player2 : string;
  h_winner : option string;
  h_timestamp : Z
}.

Record Store : Type := mkStore {
  scores : list (string * Z);
  history : list HistoryRow
}.

Inductive statement : Type :=
| InsertScore (n : string)       (* INSERT INTO scores VALUES (?, 1) *)
| UpdateScore (n : string)       (* UPDATE scores SET score = score + 1
                                    WHERE name = ? *)
| InsertHistory (row : HistoryRow).  (* INSERT INTO history VALUES (?,?,?,?) *)

Definition has_name (n : string) (rows : list (string * Z)) : bool :=
  existsb (fun row => bool_decide (row.1 = n)) rows.

Definition bump (n : string) (row : string * Z) : string * Z :=
  if bool_decide (row.1 = n) then (row.1, row.2 + 1) else row.

(** Modelled from the spec: the schema of the [scores] table, which is not
    part of the sources; its column [name] is a unique key, so that an
    insert of a name already present fails with [IntegrityError] and
    leaves the table as it was. *)
Definition insert_score (n : string) (rows : list (string * Z))
    : result (list (string * Z)) :=
  if has_name n rows then Raise IntegrityError else Ok (rows ++ [(n, 1)]).

(** [cursor.execute] on the contents seen by the open connection. *)
Definition execute (s : Store) (q : statement) : result unit * Store :=
  match q with
  | InsertScore n =>
      match insert_score n (scores s) with
      | Ok rows => (Ok tt, {| scores := rows; history := history s |})
      | Raise e => (Raise e, s)
      end
  | UpdateScore n =>
      (Ok tt, {| scores := bump n <$> scores s; history := history s |})
  | InsertHistory row =>
      (Ok tt, {| scores := scores s; history := history s ++ [row] |})
  end.

(** ** The context manager [dbopen] *)

(** A connection: the contents of the database file, the contents as the
    open transaction sees them, and whether [close] was called. *)
Record Connection : Type := mkConnection {
  on_disk : Store;
  in_transaction : Store;
  closed : bool
}.

Definition connect (file : Store) : Connection :=
  {| on_disk := file; in_transaction := file; closed := false |}.

Definition commit (c : Connection) : Connection :=
  {| on_disk := in_transaction c; in_transaction := in_transaction c;
     closed := closed c |}.

(** Closing drops what was not committed. *)
Definition close (c : Connection) : Connection :=
  {| on_disk := on_disk c; in_transaction := on_disk c; closed := true |}.

(** [dbopen.__enter__] *)
Definition dbopen_enter (file : Store) : Connection := connect file.

(** [dbopen.__exit__]: commit, close, and return [None]. *)
Definition dbopen_exit (c : Connection) (exc : option exn)
    : pyval * Connection :=
  (VNone, close (commit c)).

(** The block of a [with] statement works through the cursor. *)
Definition through_cursor {A} (block : Store -> result A * Store)
    (c : Connection) : result A * Connection :=
  let '(r, s) := block (in_transaction c) in
  (r, {| on_disk := on_disk c; in_transaction := s; closed := closed c |}).

(** [with dbopen(path) as cursor: block].  Python calls [__exit__] when
    the block ends or raises, and lets the exception go on unless
    [__exit__] returned a true value.  [Ok None] is a block whose
    exception was suppressed. *)
Definition with_dbopen {A} (file : Store)
    (block : Store -> result A * Store) : result (option A) * Connection :=
  let c := dbopen_enter file in
  let '(r, c1) := through_cursor block c in
  match r with
  | Ok a =>
      let '(_, c2) := dbopen_exit c1 None in (Ok (Some a), c2)
  | Raise e =>
      let '(ret, c2) := dbopen_exit c1 (Some e) in
      if truthy ret then (Ok None, c2) else (Raise e, c2)
  end.

(** The [try]/[except sql.IntegrityError] block of [add_score]. *)
Definition upsert_block (n : string) (s : Store) : result unit * Store :=
  match execute s (InsertScore n) with
  | (Raise IntegrityError, s1) => execute s1 (UpdateScore n)
  | outcome => outcome
  end.

(** [Player.add_score] *)
Definition Player_add_score (p : Player) (file : Store)
    : result unit * Player * Store :=
  let p1 := incr_score p in
  let '(r, c) := with_dbopen file (upsert_block (name p1)) in
  (_ ← r; Ok tt, p1, on_disk c).

(** ** The game *)

Record Game : Type := mkGame {
  board : gmap Z Marker;
  players : list PlayerRef;
  winner : option PlayerRef;
  round_num : Z
}.

(** What lies outside a [Game] object: the two [Player] objects, the
    database file, and the reading of the clock. *)
Record World : Type := mkWorld {
  heap : Heap;
  file : Store;
  now : Z
}.

(** [Game.__init__] *)
Definition Game_init (n : Z) : Game :=
  {| board := ∅; players := []; winner := None; round_num := n |}.

Definition with_heap (w : World) (h : Heap) : World :=
  {| heap := h; file := file w; now := now w |}.

Definition with_file (w : World) (f : Store) : World :=
  {| heap := heap w; file := f; now := now w |}.

Definition with_board (g : Game) (b : gmap Z Marker) : Game :=
  {| board := b; players := players g; winner := winner g;
     round_num := round_num g |}.

Definition with_winner (g : Game) (r : PlayerRef) : Game :=
  {| board := board g; players := players g; winner := Some r;
     round_num := round_num g |}.

Definition with_round_num (g : Game) (n : Z) : Game :=
  {| board := board g; players := players g; winner := winner g;
     round_num := n |}.

Definition with_players (g : Game) (rs : list PlayerRef) : Game :=
  {| board := board g; players := rs; winner := winner g;
     round_num := round_num g |}.

(** [self.players[i]] *)
Definition player_at (g : Game) (i : nat) : result PlayerRef :=
  match players g !! i with
  | Some r => Ok r
  | None => Raise IndexError
  end.

(** [Game.draw_scoreboard] reads [players[0]] and [players[1]]; what it
    prints is not modelled. *)
Definition draw_scoreboard (g : Game) : result unit :=
  _ ← player_at g 0; _ ← player_at g 1; Ok tt.

(** [player.add_score()] on the object behind a reference. *)
Definition add_score_at (w : World) (r : PlayerRef) : result unit * World :=
  let '(res, p, f) := Player_add_score (deref (heap w) r) (file w) in
  (res, {| heap := assign (heap w) r p; file := f; now := now w |}).

(** [for player in self.players: player.add_score()] *)
Fixpoint add_score_all (rs : list PlayerRef) (w : World)
    : result unit * World :=
  match rs with
  | [] => (Ok tt, w)
  | r :: rest =>
      match add_score_at w r with
      | (Ok _, w1) => add_score_all rest w1
      | (Raise e, w1) => (Raise e, w1)
      end
  end.

(** [Game.save] *)
Definition Game_save (w : World) (g : Game) : result unit * World * Game :=
  let g1 := with_round_num g (round_num g + 1) in
  let timestamp := now w in
  match player_at g1 0, player_at g1 1 with
  | Ok r1, Ok r2 =>
      let p1_name := name (deref (heap w) r1) in
      let p2_name := name (deref (heap w) r2) in
      let winner_name :=
        match winner g1 with
        | Some r => Some (name (deref (heap w) r))
        | None => None
        end in
      let row := {| h_player1 := p1_name; h_player2 := p2_name;
                    h_winner := winner_name; h_timestamp := timestamp |} in
      let '(res, c) :=
        with_dbopen (file w) (fun s => execute s (InsertHistory row)) in
      (_ ← res; Ok tt, with_file w (on_disk c), g1)
  | Raise e, _ => (Raise e, w, g1)
  | _, Raise e => (Raise e, w, g1)
  end.

(** The condition of the [if] in the inner loop:
    [move.isdigit() and 1 <= int(move) <= 9 and
     self.board.add_move(int(move), cur_player)]. *)
Definition move_guard (b : gmap Z Marker) (h : Heap) (cur : PlayerRef)
    (move : string) : result (bool * gmap Z Marker * Heap) :=
  if PyStr.isdigit move then
    n ← int move;
    if (1 <=? n) && (n <=? 9) then
      cell ← int move;
      Ok (Board_add_move b h cell cur)
    else Ok (false, b, h)
  else Ok (false, b, h).

(** What one line of input at the move prompt leads to. *)
Inductive Outcome : Type :=
| Stopped (w : World) (g : Game)     (* [return] on the stop word *)
| Rejected (w : World) (g : Game)    (* not a valid move: ask again *)
| Moved (w : World) (g : Game)       (* on to the next player *)
| RoundOver (w : World) (g : Game)   (* won or drawn, and saved *)
| Failed (e : exn) (w : World) (g : Game).

(** The outer loop after a move was placed, from [check_winner] on. *)
Definition after_move (w : World) (g : Game) (cur : PlayerRef) : Outcome :=
  let won := check_winner (deref (heap w) cur) in
  if truthy won then
    match add_score_at w cur with
    | (Raise e, w1) => Failed e w1 g
    | (Ok _, w1) =>
        match getitem won 1 with
        | None => Failed IndexError w1 g
        | Some _winning_combo =>
            let g1 := with_winner g cur in
            match Game_save w1 g1 with
            | (Raise e, w2, g2) => Failed e w2 g2
            | (Ok _, w2, g2) => RoundOver w2 g2
            end
        end
    end
  else if is_full (board g) then
    match add_score_all (players g) w with
    | (Raise e, w1) => Failed e w1 g
    | (Ok _, w1) =>
        match Game_save w1 g with
        | (Raise e, w2, g2) => Failed e w2 g2
        | (Ok _, w2, g2) => RoundOver w2 g2
        end
    end
  else Moved w g.

(** One pass through the inner loop of [Game.start], and, when the move
    is placed, the rest of the outer loop's body. *)
Definition ask (w : World) (g : Game) (cur : PlayerRef) (move : string)
    : Outcome :=
  if bool_decide (PyStr.lower move = "?stop"%string) then Stopped w g
  else
    match move_guard (board g) (heap w) cur move with
    | Raise e => Failed e w g
    | Ok (false, b, h) => Rejected (with_heap w h) (with_board g b)
    | Ok (true, b, h) => after_move (with_heap w h) (with_board g b) cur
    end.

(** [next(players_iter)] for the [k]-th time, on [itertools.cycle]. *)
Definition cycle_next (rs : list PlayerRef) (k : nat) : result PlayerRef :=
  match rs with
  | [] => Raise StopIteration
  | _ => match rs !! (k mod length rs)%nat with
         | Some r => Ok r
         | None => Raise StopIteration
         end
  end.

(** The body of the rematch loop for one player: moves reset, marker set
    by position, reference appended to the new game's list. *)
Definition rebind (acc : Heap * list PlayerRef) (index : nat)
    (r : PlayerRef) : Heap * list PlayerRef :=
  let '(h, new_players) := acc in
  let p := Player_reset_moves (deref h r) in
  let p := set_marker p (if (index =? 0)%nat then MarkX else MarkO) in
  (assign h r p, new_players ++ [r]).

Fixpoint rebind_all (acc : Heap * list PlayerRef) (index : nat)
    (rs : list PlayerRef) : Heap * list PlayerRef :=
  match rs with
  | [] => acc
  | r :: rest => rebind_all (rebind acc index r) (S index) rest
  end.

(** The rematch branch of [Game.start]: the game of the next round. *)
Definition rematch (w : World) (g : Game) : World * Game :=
  let game := Game_init (round_num g) in
  let '(h, new_players) := rebind_all (heap w, []) 0 (reverse (players g)) in
  (with_heap w h, with_players game new_players).

(** How a call of [Game.start] ends. *)
Inductive Ending : Type :=
| Returned (w : World) (g : Game)
| Crashed (e : exn) (w : World) (g : Game).

(** The loops of [Game.start], fed with the lines typed at the prompts
    and the choices made in the rematch menu; [k] counts the calls of
    [next(players_iter)] made so far.  Running out of lines or of
    choices ends the run with [EOFError]. *)
Fixpoint rounds (lines : list string) (picks : list nat) (w : World)
    (g : Game) (k : nat) : Ending :=
  match cycle_next (players g) k with
  | Raise e => Crashed e w g
  | Ok cur =>
      match lines with
      | [] => Crashed EOFError w g
      | move :: rest =>
          match ask w g cur move with
          | Stopped w1 g1 => Returned w1 g1
          | Rejected w1 g1 => rounds rest picks w1 g1 k
          | Moved w1 g1 => rounds rest picks w1 g1 (S k)
          | Failed e w1 g1 => Crashed e w1 g1
          | RoundOver w1 g1 =>
              match rest with
              | [] => Crashed EOFError w1 g1
              | _press_enter :: rest1 =>
                  match picks with
                  | [] => Crashed EOFError w1 g1
                  | index :: picks1 =>
                      if (index =? 0)%nat then
                        let '(w2, g2) := rematch w1 g1 in
                        match draw_scoreboard g2 with
                        | Raise e => Crashed e w2 g2
                        | Ok _ => rounds rest1 picks1 w2 g2 0
                        end
                      else Returned w1 g1
                  end
              end
          end
      end
  end.

(** [Game.start] *)
Definition Game_start (lines : list string) (picks : list nat) (w : World)
    (g : Game) : Ending :=
  match draw_scoreboard g with
  | Raise e => Crashed e w g
  | Ok _ => rounds lines picks w g 0
  end.

(** The part of [main] that sets up a session, from the two names typed:
    [None] when a name is the stop word. *)
Definition new_session (name1 name2 : string) (f : Store) (clock : Z)
    : option (World * Game) :=
  if bool_decide (PyStr.lower name1 = "?stop"%string) then None
  else if bool_decide (PyStr.lower name2 = "?stop"%string) then None
  else
    let name1 := if PyStr.truthy name1 then name1 else "Player 1"%string in
    let name2 := if PyStr.truthy name2 then name2 else "Player 2"%string in
    let p1 := Player_init name1 MarkX in
    let p2 := Player_init name2 MarkO in
    let game := with_players (Game_init 1) [player1; player2] in
    Some ({| heap := {| obj1 := p1; obj2 := p2 |}; file := f; now := clock |},
          game).

Definition empty_store : Store := {| scores := []; history := [] |}.

(** ** Resetting the store *)

Inductive delete_statement : Type :=
| DeleteScores       (* DELETE FROM scores *)
| DeleteHistory.     (* DELETE FROM history *)

(** [cursor.execute] on one of the two [DELETE] statements. *)
Definition execute_delete (s : Store) (q : delete_statement)
    : result unit * Store :=
  match q with
  | DeleteScores => (Ok tt, {| scores := []; history := history s |})
  | DeleteHistory => (Ok tt, {| scores := scores s; history := [] |})
  end.

(** The block of [reset_data]; [None] is the default argument. *)
Definition reset_block (specific_data : option string) (s : Store)
    : result unit * Store :=
  match specific_data with
  | None =>
      match execute_delete s DeleteScores with
      | (Ok _, s1) => execute_delete s1 DeleteHistory
      | failed => failed
      end
  | Some data =>
      if bool_decide (data = "Leaderboard"%string)
      then execute_delete s DeleteScores
      else if bool_decide (data = "History"%string)
      then execute_delete s DeleteHistory
      else (Raise ValueError, s)
  end.

(** [reset_data] *)
Definition reset_data (specific_data : option string) (f : Store)
    : result unit * Store :=
  let '(r, c) := with_dbopen f (reset_block specific_data) in
  (_ ← r; Ok tt, on_disk c).

(** ** Drawing the board *)

(** [normalify]: the slice [text[5:-4]]. *)
Definition normalify (text : string) : string :=
  substring 5 (String.length text - 9) text.

(** An entry of [raw_table]: a string or an integer. *)
Inductive cell : Type :=
| Text (s : string)
| Number (i : Z).

(** The exceptions that [Board.draw] can end with. *)
Inductive draw_exn : Type :=
| Draw_ValueError
| Draw_TypeError
| Draw_IndexError.

(** [range(1, 10)] *)
Definition cell_numbers : list Z := [1; 2; 3; 4; 5; 6; 7; 8; 9].

(** The position that the index [idx] names in a list of [n] items;
    negative indices count from the end. *)
Definition list_index (n : nat) (idx : Z) : option nat :=
  if (0 <=? idx) && (idx <? Z.of_nat n) then Some (Z.to_nat idx)
  else if (- Z.of_nat n <=? idx) && (idx <? 0)
       then Some (Z.to_nat (Z.of_nat n + idx))
       else None.

(** [range(0, n, 3)] *)
Definition range_by_three (n : nat) : list nat :=
  (λ j, 3 * j)%nat <$> seq 0 ((n + 2) / 3).

(** [[raw_table[i : i + 3] for i in range(0, len(raw_table), 3)]] *)
Definition table_rows (raw : list cell) : list (list cell) :=
  (λ i, take 3 (drop i raw)) <$> range_by_three (length raw).

Section Drawing.

(** The strings that the library for terminal colours builds: the text of
    a marker, and a text turned green. *)
Variable colored_marker : Marker → string.
Variable greenify : string → string.

Definition raw_cell (b : gmap Z Marker) (i : Z) : cell :=
  match b !! i with
  | Some m => Text (colored_marker m)
  | None => Number i
  end.

Definition raw_table (b : gmap Z Marker) : list cell :=
  raw_cell b <$> cell_numbers.

(** [raw_table[index - 1] = greenify(normalify(raw_table[index - 1]))] *)
Definition highlight (raw : list cell) (index : Z) : draw_exn + list cell :=
  match list_index (length raw) (index - 1) with
  | None => inl Draw_IndexError
  | Some pos =>
      match raw !! pos with
      | Some (Text s) => inr (<[pos := Text (greenify (normalify s))]> raw)
      | Some (Number _) => inl Draw_TypeError
      | None => inl Draw_IndexError
      end
  end.

Fixpoint highlight_all (raw : list cell) (combo : list Z)
    : draw_exn + list cell :=
  match combo with
  | [] => inr raw
  | index :: rest =>
      match highlight raw index with
      | inl e => inl e
      | inr raw' => highlight_all raw' rest
      end
  end.

(** [Board.draw], up to the table that is handed to [tabulate]; an empty
    tuple counts as no combination. *)
Definition Board_draw (b : gmap Z Marker) (winning_combo : option (list Z))
    : draw_exn + list (list cell) :=
  let combo := default [] winning_combo in
  let given := match combo with [] => false | _ => true end in
  if given && negb (length combo =? 3)%nat then inl Draw_ValueError
  else
    match (if given then highlight_all (raw_table b) combo
           else inr (raw_table b)) with
    | inl e => inl e
    | inr raw => inr (table_rows raw)
    end.

End Drawing.

(** * Vocabulary of the properties *)

(** A player satisfies a combination when every cell of it is in the
    player's list of moves. *)
Definition satisfied (p : Player) (combo : list Z) : Prop :=
  ∀ cell, cell ∈ combo → cell ∈ moves p.

Definition alice : Player := Player_init "alice" MarkX.

(** The rows of [scores] carry pairwise different names. *)
Definition unique_names (rows : list (string * Z)) : Prop := NoDup rows.*1.

(** [SELECT score FROM scores WHERE name = ?], first row found. *)
Fixpoint score_of (n : string) (rows : list (string * Z)) : option Z :=
  match rows with
  | [] => None
  | row :: rest => if bool_decide (row.1 = n) then Some row.2
                   else score_of n rest
  end.

Definition bob_has_won_twice : Store :=
  {| scores := [("Alice"%string, 1); ("Bob"%string, 2)]; history := [] |}.

Definition bob : Player := Player_init "bob" MarkO.


(** The superscript two, U+00B2: a digit for [str.isdigit], but not a
    numeral that [int] reads. *)
Definition superscript_two : string := String (ascii_of_N 178) EmptyString.

(** Insert with count 1, or add one to the row that is there. *)
Definition upsert (n : string) (rows : list (string * Z))
    : list (string * Z) :=
  if has_name n rows then bump n <$> rows else rows ++ [(n, 1)].

Definition draw_row (w : World) (r1 r2 : PlayerRef) : HistoryRow :=
  {| h_player1 := name (deref (heap w) r1);
     h_player2 := name (deref (heap w) r2);
     h_winner := None;
     h_timestamp := now w |}.

Definition world0 : World :=
  {| heap := {| obj1 := Player_init "alice" MarkX;
                obj2 := Player_init "bob" MarkO |};
     file := empty_store;
     now := 1700000000 |}.

Definition game0 : Game := with_players (Game_init 1) [player1; player2].

Definition ending_world (e : Ending) : World :=
  match e with Returned w _ => w | Crashed _ w _ => w end.

Definition ending_game (e : Ending) : Game :=
  match e with Returned _ g => g | Crashed _ _ g => g end.

(** The state in which the lines given so far leave the session, at the
    prompt where the next line is awaited. *)
Definition world_after (lines : list string) : World :=
  ending_world (rounds lines [] world0 game0 0).

Definition game_after (lines : list string) : Game :=
  ending_game (rounds lines [] world0 game0 0).

(** Eight moves that leave cell 9 free and no line of three. *)
Definition eight_moves : list string :=
  ["1"; "3"; "2"; "4"; "6"; "5"; "7"; "8"].

Definition outcome_world (o : Outcome) : World :=
  match o with
  | Stopped w _ | Rejected w _ | Moved w _ | RoundOver w _ | Failed _ w _ => w
  end.

Definition outcome_game (o : Outcome) : Game :=
  match o with
  | Stopped _ g | Rejected _ g | Moved _ g | RoundOver _ g | Failed _ _ g => g
  end.

(** Alice takes the first row while Bob plays 4 and 5. *)
Definition alice_about_to_win : list string := ["1"; "4"; "2"; "5"].

Definition world_won : World :=
  outcome_world (ask (world_after alice_about_to_win)
                   (game_after alice_about_to_win) player1 "3").

Definition game_won : Game :=
  outcome_game (ask (world_after alice_about_to_win)
                  (game_after alice_about_to_win) player1 "3").

(** A run of calls of [Board.add_move], each for one of the two players;
    a call on a taken cell changes nothing. *)
Definition add_moves (calls : list (Z * PlayerRef)) (b : gmap Z Marker)
    (h : Heap) : gmap Z Marker * Heap :=
  foldl (λ st call, let '(_, b', h') :=
                      Board_add_move st.1 st.2 call.1 call.2 in (b', h'))
        (b, h) calls.

(** The board and the two lists of moves tell the same story. *)
Record agrees (b : gmap Z Marker) (h : Heap) : Prop := mkAgrees {
  agrees_dom :
    dom b = list_to_set (moves (obj1 h)) ∪ list_to_set (moves (obj2 h));
  agrees_disjoint :
    ∀ c, c ∈ moves (obj1 h) → c ∈ moves (obj2 h) → False;
  agrees_nodup : ∀ r, NoDup (moves (deref h r));
  agrees_marker :
    ∀ r c, c ∈ moves (deref h r) → b !! c = Some (marker (deref h r))
}.

Inductive phase : Type := Playing | Over.

(** The states of a session: it starts in [main], goes on with every line
    typed at the move prompt of one of the two players, and, after a
    round that was won or drawn, with a rematch.  The order in which the
    players are asked is left free. *)
Inductive reachable : phase → World → Game → Prop :=
| reach_session name1 name2 f clock w g :
    new_session name1 name2 f clock = Some (w, g) →
    reachable Playing w g
| reach_rejected w g cur move w' g' :
    reachable Playing w g → cur ∈ players g →
    ask w g cur move = Rejected w' g' →
    reachable Playing w' g'
| reach_moved w g cur move w' g' :
    reachable Playing w g → cur ∈ players g →
    ask w g cur move = Moved w' g' →
    reachable Playing w' g'
| reach_over w g cur move w' g' :
    reachable Playing w g → cur ∈ players g →
    ask w g cur move = RoundOver w' g' →
    reachable Over w' g'
| reach_rematch w g :
    reachable Over w g →
    reachable Playing (rematch w g).1 (rematch w g).2.

Record game_inv (w : World) (g : Game) : Prop := mkGameInv {
  inv_players : ∃ r1 r2, players g = [r1; r2] ∧ r1 ≠ r2;
  inv_cells : ∀ c, is_Some (board g !! c) → 1 ≤ c ≤ 9;
  inv_agrees : agrees (board g) (heap w);
  inv_sorted : ∀ r, StronglySorted Z.le (moves (deref (heap w) r))
}.

Definition nine_cells : gset Z := list_to_set [1; 2; 3; 4; 5; 6; 7; 8; 9].

(** The count stored for a name, 0 when the name has no row. *)
Definition stored (n : string) (rows : list (string * Z)) : Z :=
  default 0 (score_of n rows).

(** The points that the players called [n] hold in memory. *)
Definition points (n : string) (h : Heap) : Z :=
  (if bool_decide (name (obj1 h) = n) then score (obj1 h) else 0)
  + (if bool_decide (name (obj2 h) = n) then score (obj2 h) else 0).

(** A history row of the session that began in the world [w0]: it names
    the two players in one order or the other, its winner is one of them
    or nobody, and it bears the time of the session's clock. *)
Definition session_row (w0 : World) (row : HistoryRow) : Prop :=
  h_timestamp row = now w0
  ∧ ((h_player1 row = name (obj1 (heap w0))
      ∧ h_player2 row = name (obj2 (heap w0)))
     ∨ (h_player1 row = name (obj2 (heap w0))
        ∧ h_player2 row = name (obj1 (heap w0))))
  ∧ (h_winner row = None
     ∨ h_winner row = Some (name (obj1 (heap w0)))
     ∨ h_winner row = Some (name (obj2 (heap w0)))).

(** The books of a session that began in the world [w0], at round 1: the
    names and the clock are those of the beginning, every stored count is
    what it was plus the points made since, and the history is what it
    was plus one row for each round that was completed. *)
Record session_inv (w0 w : World) (g : Game) : Prop := mkSessionInv {
  si_names : ∀ r, name (deref (heap w) r) = name (deref (heap w0) r);
  si_now : now w = now w0;
  si_scores :
    ∀ n, stored n (scores (file w)) + points n (heap w0)
         = stored n (scores (file w0)) + points n (heap w);
  si_rows :
    ∃ rows, history (file w) = history (file w0) ++ rows
            ∧ Z.of_nat (length rows) = round_num g - 1
            ∧ Forall (session_row w0) rows
}.



(** The line made of the digit of a cell from 1 to 9. *)
Definition digit_line (cell : Z) : string :=
  String (ascii_of_N (Z.to_N (48 + cell))) EmptyString.

(** Spec scenario: the board is filled by 1,2,3,4,5,6,8,7 and then 9. *)
Definition eight_moves_then_diagonal : list string :=
  ["1"; "2"; "3"; "4"; "5"; "6"; "8"; "7"].

(** The entry of the table shown for the cell [i]: row [(i - 1) // 3],
    column [(i - 1) % 3]. *)
Definition table_cell (table : list (list cell)) (i : Z) : option cell :=
  row ← table !! Z.to_nat ((i - 1) / 3); row !! Z.to_nat ((i - 1) mod 3).

(** A table of cells, given cell by cell, with one cell replaced. *)
Definition fn_update (f : Z → cell) (i : Z) (c : cell) : Z → cell :=
  λ j, if bool_decide (j = i) then c else f j.

(** * Properties *)

(** ** Win detection *)

Lemma all_in_true (combo claimed : list Z) :
  all_in combo claimed = true ↔ ∀ cell, cell ∈ combo → cell ∈ claimed.
Proof.
  unfold all_in. rewrite forallb_forall. split.
  - intros H cell Hin. apply list_elem_of_In in Hin.
    apply H in Hin. by apply bool_decide_eq_true in Hin.
  - intros H cell Hin. apply bool_decide_eq_true, H.
    by apply list_elem_of_In.
Qed.

Lemma all_in_false (combo claimed : list Z) :
  all_in combo claimed = false ↔ ¬ ∀ cell, cell ∈ combo → cell ∈ claimed.
Proof.
  rewrite <- all_in_true. destruct (all_in combo claimed); split; done.
Qed.

Lemma tuple_of_inj (c1 c2 : list Z) : tuple_of c1 = tuple_of c2 → c1 = c2.
Proof.
  unfold tuple_of. intros H. injection H as H.
  revert c2 H. induction c1 as [|x c1 IH]; intros [|y c2] H;
    simpl in H; try done.
  injection H as -> H. f_equal. by apply IH.
Qed.

(** The loop returns [False] exactly when it went through all
    combinations without a match. *)
Lemma check_combos_false (combos : list (list Z)) (claimed : list Z) :
  check_combos combos claimed = VBool false ↔
  ∀ combo, combo ∈ combos → all_in combo claimed = false.
Proof.
  induction combos as [|c rest IH]; simpl.
  - split; [intros _ combo Hin; by apply elem_of_nil in Hin | done].
  - destruct (all_in c claimed) eqn:Hc.
    + split; [done |]. intros H.
      specialize (H c (list_elem_of_here _ _)). congruence.
    + rewrite IH. split.
      * intros H combo Hin. apply elem_of_cons in Hin as [-> | Hin]; auto.
      * intros H combo Hin. apply H. by apply list_elem_of_further.
Qed.

(** The loop returns the pair [(True, combo)] exactly for the first
    combination, in the order of the list, that is matched. *)
Lemma check_combos_true (combos : list (list Z)) (claimed combo : list Z) :
  check_combos combos claimed = VTuple [VBool true; tuple_of combo] ↔
  ∃ i : nat, combos !! i = Some combo ∧ all_in combo claimed = true ∧
    ∀ (j : nat) earlier, (j < i)%nat → combos !! j = Some earlier →
      all_in earlier claimed = false.
Proof.
  induction combos as [|c rest IH]; simpl.
  - split; [done | by intros (i & Hi & _)].
  - destruct (all_in c claimed) eqn:Hc.
    + split.
      * intros H. assert (Heq : tuple_of c = tuple_of combo) by congruence.
        apply tuple_of_inj in Heq as ->.
        exists 0%nat. repeat split; [done | intros j e Hj; lia].
      * intros (i & Hi & Hsat & Hfirst). destruct i as [|i].
        -- simpl in Hi. by injection Hi as ->.
        -- specialize (Hfirst 0%nat c ltac:(lia) eq_refl). congruence.
    + rewrite IH. split.
      * intros (i & Hi & Hsat & Hfirst). exists (S i).
        repeat split; [done.. |]. intros [|j] e Hj He.
        -- simpl in He. by injection He as <-.
        -- simpl in He. apply (Hfirst j); [lia | done].
      * intros (i & Hi & Hsat & Hfirst). destruct i as [|i].
        -- simpl in Hi. injection Hi as ->. congruence.
        -- exists i. repeat split; [done.. |]. intros j e Hj He.
           apply (Hfirst (S j)); [lia | done].
Qed.

Lemma check_combos_cases (combos : list (list Z)) (claimed : list Z) :
  check_combos combos claimed = VBool false ∨
  ∃ combo, combo ∈ combos ∧
    check_combos combos claimed = VTuple [VBool true; tuple_of combo].
Proof.
  induction combos as [|c rest IH]; simpl; [by left |].
  destruct (all_in c claimed).
  - right. exists c. split; [apply list_elem_of_here | done].
  - destruct IH as [IH | (combo & Hin & IH)]; [by left |].
    right. exists combo. split; [by apply list_elem_of_further | done].
Qed.

(** C1 (as amended).  [check_winner] goes through the eight combinations
    in the order rows (1,2,3), (4,5,6), (7,8,9), columns (1,4,7), (2,5,8),
    (3,6,9), diagonals (1,5,9), (3,5,7).  It returns a pair [(True, combo)]
    iff the player's moves contain every cell of some combination; the
    combination returned is the first one in that order that is matched;
    and when none is matched it returns the plain value [False], which is
    not a pair. *)
Theorem check_winner_first_match (p : Player) :
  winning_combos =
    [ [1; 2; 3]; [4; 5; 6]; [7; 8; 9]; [1; 4; 7]; [2; 5; 8]; [3; 6; 9];
      [1; 5; 9]; [3; 5; 7] ]
  ∧ ((∃ combo, combo ∈ winning_combos ∧ satisfied p combo) ↔
     ∃ combo, check_winner p = VTuple [VBool true; tuple_of combo])
  ∧ (∀ combo, check_winner p = VTuple [VBool true; tuple_of combo] ↔
       ∃ i : nat, winning_combos !! i = Some combo ∧ satisfied p combo ∧
         ∀ (j : nat) earlier, (j < i)%nat →
           winning_combos !! j = Some earlier → ¬ satisfied p earlier)
  ∧ ((∀ combo, combo ∈ winning_combos → ¬ satisfied p combo) ↔
     check_winner p = VBool false).
Proof.
  unfold check_winner, satisfied.
  assert (Hfalse : (∀ combo, combo ∈ winning_combos →
                      ¬ ∀ cell, cell ∈ combo → cell ∈ moves p) ↔
                   check_combos winning_combos (moves p) = VBool false).
  { rewrite check_combos_false. split; intros H combo Hin.
    - apply all_in_false. by apply H.
    - apply all_in_false. by apply H. }
  split; [done |]. split; [| split; [| done]].
  - split.
    + intros (combo & Hin & Hsat).
      destruct (check_combos_cases winning_combos (moves p))
        as [Hno | (c & _ & Hc)]; [| by exists c].
      by destruct (proj2 Hfalse Hno combo Hin).
    + intros (combo & Hc). apply check_combos_true in Hc
        as (i & Hi & Hsat & _).
      exists combo. split; [by eapply list_elem_of_lookup_2 |].
      by apply all_in_true.
  - intros combo. rewrite check_combos_true. split.
    + intros (i & Hi & Hsat & Hfirst). exists i.
      split; [done |]. split; [by apply all_in_true |].
      intros j e Hj He. apply all_in_false. by apply (Hfirst j).
    + intros (i & Hi & Hsat & Hfirst). exists i.
      split; [done |]. split; [by apply all_in_true |].
      intros j e Hj He. apply all_in_false. by apply (Hfirst j).
Qed.

(** C1, the claim as written fails: with no combination matched the value
    returned is [False], not the pair [(False, None)] (a pair that would
    count as true in [if winner:]). *)
Lemma check_winner_no_match_not_a_pair :
  (∀ combo, combo ∈ winning_combos → ¬ satisfied alice combo)
  ∧ check_winner alice = VBool false
  ∧ check_winner alice ≠ VTuple [VBool false; VNone]
  ∧ truthy (VTuple [VBool false; VNone]) = true.
Proof.
  assert (H : check_winner alice = VBool false) by reflexivity.
  split; [| split; [done | split; [by rewrite H | done]]].
  intros combo Hin. apply all_in_false.
  by apply (check_combos_false winning_combos (moves alice)).
Qed.

(** ** The store: scoped connections and the score upsert *)

(** C9.  A [with dbopen(...)] block, whether it ends normally or raises,
    leaves the connection committed (the file holds what the block wrote,
    up to the point where it stopped) and closed; a normal result is
    passed on, and an exception raised inside the block is raised again
    to the caller, not swallowed. *)
Theorem dbopen_commits_and_closes {A} (f : Store)
    (block : Store -> result A * Store) :
  closed (with_dbopen f block).2 = true
  ∧ on_disk (with_dbopen f block).2 = (block f).2
  ∧ in_transaction (with_dbopen f block).2 = (block f).2
  ∧ (∀ a, (block f).1 = Ok a → (with_dbopen f block).1 = Ok (Some a))
  ∧ (∀ e, (block f).1 = Raise e → (with_dbopen f block).1 = Raise e).
Proof.
  unfold with_dbopen, through_cursor, dbopen_enter, connect. simpl.
  destruct (block f) as [[a | e] s]; simpl; repeat split; congruence.
Qed.

Lemma has_name_elem (n : string) (rows : list (string * Z)) :
  has_name n rows = true ↔ n ∈ rows.*1.
Proof.
  induction rows as [|row rest IH]; simpl.
  - split; [done | by intros H%elem_of_nil].
  - rewrite orb_true_iff, IH, elem_of_cons, bool_decide_eq_true.
    split; intros [H | H]; auto.
Qed.

Lemma has_name_score_of (n : string) (rows : list (string * Z)) :
  has_name n rows = false ↔ score_of n rows = None.
Proof.
  induction rows as [|row rest IH]; simpl; [done |].
  destruct (bool_decide (row.1 = n)); simpl; [split; done | done].
Qed.

Lemma bump_names (n : string) (rows : list (string * Z)) :
  (bump n <$> rows).*1 = rows.*1.
Proof.
  induction rows as [|row rest IH]; [done |].
  rewrite !fmap_cons, IH. f_equal.
  unfold bump. by destruct (bool_decide (row.1 = n)).
Qed.

Lemma score_of_bump (n : string) (rows : list (string * Z)) :
  score_of n (bump n <$> rows) = (λ k, k + 1) <$> score_of n rows.
Proof.
  induction rows as [|row rest IH]; [done |].
  rewrite fmap_cons. cbn [score_of]. rewrite IH. unfold bump.
  destruct (bool_decide (row.1 = n)) eqn:Hrow; simpl; rewrite Hrow; done.
Qed.

Lemma score_of_bump_other (n m : string) (rows : list (string * Z)) :
  m ≠ n → score_of m (bump n <$> rows) = score_of m rows.
Proof.
  intros Hne. induction rows as [|row rest IH]; [done |].
  rewrite fmap_cons. cbn [score_of]. rewrite IH. unfold bump.
  destruct (bool_decide (row.1 = n)) eqn:Hrow; simpl; [| done].
  apply bool_decide_eq_true in Hrow.
  rewrite bool_decide_eq_false_2 by congruence. done.
Qed.

Lemma score_of_append (m : string) (rows : list (string * Z))
    (row : string * Z) :
  score_of m (rows ++ [row]) =
  match score_of m rows with
  | Some k => Some k
  | None => if bool_decide (row.1 = m) then Some row.2 else None
  end.
Proof.
  induction rows as [|r rest IH]; simpl; [done |].
  by destruct (bool_decide (r.1 = m)).
Qed.

(** What [add_score] leaves in the file. *)
Lemma add_score_file (p : Player) (f : Store) :
  (Player_add_score p f).1.1 = Ok tt
  ∧ (Player_add_score p f).1.2 = incr_score p
  ∧ (Player_add_score p f).2 =
      {| scores := if has_name (name p) (scores f)
                   then bump (name p) <$> scores f
                   else scores f ++ [(name p, 1)];
         history := history f |}.
Proof.
  unfold Player_add_score, with_dbopen, through_cursor, upsert_block,
    execute, insert_score. simpl.
  destruct (has_name (name p) (scores f)); simpl; done.
Qed.

(** C4.  [add_score] adds exactly one to the player's score in memory and
    returns normally; in the store, a name that has no row gets a row
    with count 1, and a name that has one (the insert fails on the unique
    key) gets that row's count increased by one; no other row and no
    history record changes, and the names of the table stay pairwise
    different. *)
Theorem add_score_upserts (p : Player) (f : Store) :
  unique_names (scores f) →
  (Player_add_score p f).1.1 = Ok tt
  ∧ score (Player_add_score p f).1.2 = score p + 1
  ∧ name (Player_add_score p f).1.2 = name p
  ∧ moves (Player_add_score p f).1.2 = moves p
  ∧ marker (Player_add_score p f).1.2 = marker p
  ∧ unique_names (scores (Player_add_score p f).2)
  ∧ (execute f (InsertScore (name p))).1 =
      (if has_name (name p) (scores f) then Raise IntegrityError else Ok tt)
  ∧ (score_of (name p) (scores f) = None →
       scores (Player_add_score p f).2 = scores f ++ [(name p, 1)])
  ∧ (∀ k, score_of (name p) (scores f) = Some k →
       scores (Player_add_score p f).2 = bump (name p) <$> scores f
       ∧ length (scores (Player_add_score p f).2) = length (scores f)
       ∧ score_of (name p) (scores (Player_add_score p f).2) = Some (k + 1))
  ∧ (∀ m, m ≠ name p →
       score_of m (scores (Player_add_score p f).2) = score_of m (scores f))
  ∧ history (Player_add_score p f).2 = history f.
Proof.
  intros Huniq. destruct (add_score_file p f) as (-> & -> & ->). simpl.
  assert (Hinsert : (execute f (InsertScore (name p))).1 =
            (if has_name (name p) (scores f)
             then Raise IntegrityError else Ok tt)).
  { unfold execute, insert_score.
    by destruct (has_name (name p) (scores f)). }
  destruct (has_name (name p) (scores f)) eqn:Hhas.
  - split_and!; try done.
    + unfold unique_names. by rewrite bump_names.
    + intros Hnone. apply has_name_score_of in Hnone. congruence.
    + intros k Hk. split_and!; [done | by rewrite length_fmap |].
      by rewrite score_of_bump, Hk.
    + intros m Hm. by apply score_of_bump_other.
  - apply has_name_score_of in Hhas as Hnone. split_and!; try done.
    + unfold unique_names. rewrite fmap_app. simpl.
      apply NoDup_app. split_and!; [done | | apply NoDup_singleton].
      intros x Hx Hx'. apply list_elem_of_singleton in Hx' as ->.
      apply has_name_elem in Hx. congruence.
    + intros k Hk. congruence.
    + intros m Hm. rewrite score_of_append. simpl.
      rewrite bool_decide_eq_false_2 by congruence.
      by destruct (score_of m (scores f)).
Qed.

Lemma add_score_upserts_witness :
  (Player_add_score bob bob_has_won_twice).1.1 = Ok tt
  ∧ score (Player_add_score bob bob_has_won_twice).1.2 = 1
  ∧ scores (Player_add_score bob bob_has_won_twice).2 =
      [("Alice"%string, 1); ("Bob"%string, 3)].
Proof.
  assert (Huniq : unique_names (scores bob_has_won_twice)).
  { apply (bool_decide_unpack _). by vm_compute. }
  destruct (add_score_upserts bob bob_has_won_twice Huniq)
    as (Hok & Hscore & ? & ? & ? & ? & ? & ? & Hrow & ?).
  split; [exact Hok |]. split; [exact Hscore |].
  exact (proj1 (Hrow 2 eq_refl)).
Defined.

(** ** The move prompt *)

Lemma with_heap_same (w : World) : with_heap w (heap w) = w.
Proof. by destruct w. Qed.

Lemma with_board_same (g : Game) : with_board g (board g) = g.
Proof. by destruct g. Qed.

Lemma cycle_next_elem (rs : list PlayerRef) (k : nat) (cur : PlayerRef) :
  cycle_next rs k = Ok cur → cur ∈ rs.
Proof.
  unfold cycle_next. destruct rs as [|r rest]; [done |].
  destruct ((r :: rest) !! (k mod length (r :: rest))%nat) eqn:Hk; [| done].
  intros [= <-]. by eapply list_elem_of_lookup_2.
Qed.

Lemma cycle_next_nonempty (rs : list PlayerRef) (k : nat) :
  rs ≠ [] → ∃ cur, cycle_next rs k = Ok cur.
Proof.
  intros Hne. unfold cycle_next. destruct rs as [|r rest]; [done |].
  destruct (lookup_lt_is_Some_2 (r :: rest) (k mod length (r :: rest))%nat)
    as [cur Hcur].
  { apply Nat.mod_upper_bound. simpl. lia. }
  exists cur. by rewrite Hcur.
Qed.


Lemma add_move_false (b b' : gmap Z Marker) (h h' : Heap) (cell : Z)
    (r : PlayerRef) :
  Board_add_move b h cell r = (false, b', h') →
  b' = b ∧ h' = h ∧ is_Some (b !! cell).
Proof.
  unfold Board_add_move. destruct (b !! cell) eqn:Hcell; [| done].
  intros [= <- <-]. eauto.
Qed.

Lemma add_move_true (b b' : gmap Z Marker) (h h' : Heap) (cell : Z)
    (r : PlayerRef) :
  Board_add_move b h cell r = (true, b', h') →
  b !! cell = None
  ∧ b' = <[cell := marker (deref h r)]> b
  ∧ h' = assign h r (Player_add_move (deref h r) cell).
Proof.
  unfold Board_add_move. destruct (b !! cell) eqn:Hcell; [done |].
  by intros [= <- <-].
Qed.

(** The guard is false, and nothing has changed, exactly in three cases:
    the line is not made of digits, the number is not between 1 and 9,
    or the cell is taken. *)
Lemma move_guard_false (b b' : gmap Z Marker) (h h' : Heap)
    (cur : PlayerRef) (move : string) :
  move_guard b h cur move = Ok (false, b', h') →
  b' = b ∧ h' = h ∧
  (PyStr.isdigit move = false
   ∨ ∃ n, int move = Ok n ∧ (n < 1 ∨ 9 < n ∨ is_Some (b !! n))).
Proof.
  unfold move_guard. destruct (PyStr.isdigit move); [| intros [= <- <-]; auto].
  destruct (int move) as [n | e] eqn:Hint; simpl; [| done].
  destruct ((1 <=? n) && (n <=? 9)) eqn:Hrange; simpl.
  - intros H. assert (Hadd : Board_add_move b h n cur = (false, b', h'))
      by congruence.
    apply add_move_false in Hadd as (-> & -> & Hocc).
    split_and!; [done.. |]. right. exists n. auto.
  - intros [= <- <-]. split_and!; [done.. |]. right. exists n.
    split; [done |]. apply andb_false_iff in Hrange as [H | H]; lia.
Qed.

Lemma move_guard_true (b b' : gmap Z Marker) (h h' : Heap)
    (cur : PlayerRef) (move : string) :
  move_guard b h cur move = Ok (true, b', h') →
  ∃ cell, PyStr.isdigit move = true ∧ int move = Ok cell ∧ 1 ≤ cell ≤ 9
    ∧ Board_add_move b h cell cur = (true, b', h').
Proof.
  unfold move_guard. destruct (PyStr.isdigit move); [| done].
  destruct (int move) as [n | e] eqn:Hint; simpl; [| done].
  destruct ((1 <=? n) && (n <=? 9)) eqn:Hrange; simpl; [| done].
  intros H. exists n. split_and!; [done | done | lia | lia | congruence].
Qed.



Lemma rejected_changes_nothing (w w' : World) (g g' : Game)
    (cur : PlayerRef) (move : string) :
  ask w g cur move = Rejected w' g' → w' = w ∧ g' = g.
Proof.
  unfold ask. destruct (bool_decide _); [done |].
  destruct (move_guard _ _ _ _) as [[[[] b] h] | e] eqn:Hguard; [| | done].
  - unfold after_move.
    repeat (match goal with
            | |- context [match ?x with _ => _ end] => destruct x
            end; try done).
  - apply move_guard_false in Hguard as (-> & -> & _). intros [= <- <-].
    by rewrite with_heap_same, with_board_same.
Qed.


(** C3.  When the line typed at a move prompt is the stop word in any
    mix of upper and lower case, [Game.start] returns at once: the world
    (scores in memory, the scores table, the history) and the game (board,
    round number) are what they were before the line, and the lines that
    follow are not read. *)
Theorem stop_word_ends_round (w : World) (g : Game) (k : nat)
    (move : string) (rest rest' : list string) (picks picks' : list nat) :
  PyStr.lower move = "?stop"%string →
  players g ≠ [] →
  (∀ cur, ask w g cur move = Stopped w g)
  ∧ rounds (move :: rest) picks w g k = Returned w g
  ∧ rounds (move :: rest) picks w g k = rounds (move :: rest') picks' w g k.
Proof.
  intros Hstop Hplayers.
  assert (Hask : ∀ cur, ask w g cur move = Stopped w g).
  { intros cur. unfold ask. by rewrite bool_decide_eq_true_2. }
  destruct (cycle_next_nonempty (players g) k Hplayers) as [cur Hcur].
  split_and!; [done | |]; simpl; rewrite Hcur; by rewrite Hask.
Qed.

(** C5, where the code departs from the claim.  The line made of the
    character U+00B2 passes [isdigit], and [int] raises [ValueError] on
    it: instead of asking the same player again, [Game.start] ends with
    the exception. *)
Theorem superscript_digit_raises (w : World) (g : Game) (cur : PlayerRef)
    (k : nat) (rest : list string) (picks : list nat) :
  PyStr.isdigit superscript_two = true
  ∧ int superscript_two = Raise ValueError
  ∧ ask w g cur superscript_two = Failed ValueError w g
  ∧ (cycle_next (players g) k = Ok cur →
     rounds (superscript_two :: rest) picks w g k = Crashed ValueError w g).
Proof.
  assert (Hask : ask w g cur superscript_two = Failed ValueError w g)
    by reflexivity.
  split_and!; [done | done | done |].
  intros Hcur. cbn [rounds]. rewrite Hcur. by rewrite Hask.
Qed.

(** ** The end of a round *)

Lemma deref_assign_eq (h : Heap) (r : PlayerRef) (p : Player) :
  deref (assign h r p) r = p.
Proof. by destruct r. Qed.

Lemma deref_assign_ne (h : Heap) (r r' : PlayerRef) (p : Player) :
  r ≠ r' → deref (assign h r p) r' = deref h r'.
Proof. by destruct r, r'. Qed.

Lemma add_score_at_eq (w : World) (r : PlayerRef) :
  add_score_at w r =
  (Ok tt,
   {| heap := assign (heap w) r (incr_score (deref (heap w) r));
      file := {| scores := upsert (name (deref (heap w) r)) (scores (file w));
                 history := history (file w) |};
      now := now w |}).
Proof.
  unfold add_score_at, upsert.
  destruct (add_score_file (deref (heap w) r) (file w)) as (Hres & Hp & Hf).
  destruct (Player_add_score (deref (heap w) r) (file w)) as [[res p] f].
  simpl in Hres, Hp, Hf. by subst.
Qed.

Lemma Game_save_eq (w : World) (g : Game) (r1 r2 : PlayerRef) :
  players g = [r1; r2] →
  Game_save w g =
  (Ok tt,
   with_file w
     {| scores := scores (file w);
        history := history (file w) ++
          [ {| h_player1 := name (deref (heap w) r1);
               h_player2 := name (deref (heap w) r2);
               h_winner := (λ r, name (deref (heap w) r)) <$> winner g;
               h_timestamp := now w |} ] |},
   with_round_num g (round_num g + 1)).
Proof.
  intros Hplayers. unfold Game_save, player_at. simpl. rewrite Hplayers.
  simpl. by destruct (winner g).
Qed.

(** C2.  When the move typed is placed on the last free cell and the
    player who moved has no winning combination, the round is over as a
    draw: both players have one more point in memory, the scores table
    went through the upsert for the first and then the second player's
    name, one history record with no winner was appended, and the round
    number went up by one. *)
Theorem full_board_without_win_is_draw (w : World) (g : Game)
    (cur r1 r2 : PlayerRef) (move : string) (cell : Z) :
  PyStr.lower move ≠ "?stop"%string →
  PyStr.isdigit move = true →
  int move = Ok cell →
  1 ≤ cell ≤ 9 →
  board g !! cell = None →
  size (board g) = 8%nat →
  check_winner (Player_add_move (deref (heap w) cur) cell) = VBool false →
  players g = [r1; r2] →
  r1 ≠ r2 →
  winner g = None →
  ∃ w' g',
    ask w g cur move = RoundOver w' g'
    ∧ size (board g') = 9%nat
    ∧ is_full (board g') = true
    ∧ (∀ r, score (deref (heap w') r) = score (deref (heap w) r) + 1)
    ∧ (∀ r, name (deref (heap w') r) = name (deref (heap w) r))
    ∧ history (file w') = history (file w) ++ [draw_row w r1 r2]
    ∧ scores (file w') =
        upsert (name (deref (heap w) r2))
          (upsert (name (deref (heap w) r1)) (scores (file w)))
    ∧ winner g' = None
    ∧ round_num g' = round_num g + 1.
Proof.
  intros Hstop Hdigit Hint Hrange Hfree Hsize Hnowin Hplayers Hne Hwinner.
  assert (Hfull : size (<[cell := marker (deref (heap w) cur)]> (board g))
                  = 9%nat) by (by rewrite map_size_insert_None, Hsize).
  unfold ask. rewrite bool_decide_eq_false_2 by done.
  unfold move_guard. rewrite Hdigit, Hint. simpl.
  replace ((1 <=? cell) && (cell <=? 9)) with true
    by (symmetry; apply andb_true_iff; lia).
  unfold Board_add_move. rewrite Hfree.
  unfold after_move. simpl. rewrite deref_assign_eq, Hnowin. simpl.
  unfold is_full. rewrite bool_decide_eq_true_2 by done.
  rewrite Hplayers. cbn [add_score_all]. rewrite !add_score_at_eq. simpl.
  erewrite Game_save_eq by (simpl; exact Hplayers). simpl. rewrite Hwinner.
  eexists _, _. split; [reflexivity |]. simpl.
  split_and!; try done.
  - by apply bool_decide_eq_true_2.
  - intros r. destruct r1, r2, r, cur; done.
  - intros r. destruct r1, r2, r, cur; done.
  - unfold draw_row. destruct r1, r2, cur; done.
  - destruct r1, r2, cur; done.
Qed.

(** ** A session between Alice and Bob *)

Local Open Scope string_scope.

Example session0 :
  new_session "alice" "bob" empty_store 1700000000 = Some (world0, game0).
Proof. reflexivity. Qed.

Lemma full_board_without_win_is_draw_witness :
  ∃ w' g',
    ask (world_after eight_moves) (game_after eight_moves) player1 "9"
      = RoundOver w' g'
    ∧ score (obj1 (heap w')) = 1
    ∧ score (obj2 (heap w')) = 1
    ∧ history (file w') =
        [ {| h_player1 := "Alice"; h_player2 := "Bob"; h_winner := None;
             h_timestamp := 1700000000 |} ]
    ∧ scores (file w') = [("Alice", 1); ("Bob", 1)]
    ∧ round_num g' = 2.
Proof.
  destruct (full_board_without_win_is_draw
              (world_after eight_moves) (game_after eight_moves)
              player1 player1 player2 "9" 9)
    as (w' & g' & Hask & Hsize & Hfull & Hscore & Hname & Hhist & Hscores
        & Hwinner & Hround).
  - by vm_compute.
  - reflexivity.
  - reflexivity.
  - lia.
  - reflexivity.
  - reflexivity.
  - reflexivity.
  - reflexivity.
  - discriminate.
  - reflexivity.
  - exists w', g'. split; [exact Hask |].
    split; [exact (Hscore player1) |]. split; [exact (Hscore player2) |].
    split; [exact Hhist |]. split; [exact Hscores | exact Hround].
Defined.

Lemma stop_word_ends_round_witness :
  PyStr.lower "?StOp" = "?stop"
  ∧ rounds ["?StOp"; "9"] [0%nat]
      (world_after ["5"; "1"]) (game_after ["5"; "1"]) 2
    = Returned (world_after ["5"; "1"]) (game_after ["5"; "1"])
  ∧ file (world_after ["5"; "1"]) = empty_store
  ∧ round_num (game_after ["5"; "1"]) = 1.
Proof.
  split; [reflexivity |]. split; [| split; reflexivity].
  apply (stop_word_ends_round (world_after ["5"; "1"])
           (game_after ["5"; "1"]) 2 "?StOp" ["9"] [] [0%nat] []).
  - reflexivity.
  - by vm_compute.
Defined.

Local Close Scope string_scope.

(** ** The rematch *)

Lemma Game_save_fields (w : World) (g : Game) :
  players (Game_save w g).2 = players g
  ∧ round_num (Game_save w g).2 = round_num g + 1
  ∧ board (Game_save w g).2 = board g
  ∧ winner (Game_save w g).2 = winner g
  ∧ heap (Game_save w g).1.2 = heap w.
Proof.
  unfold Game_save, player_at. simpl.
  destruct (players g !! 0%nat); [destruct (players g !! 1%nat) |]; done.
Qed.

(** A round that ends by a win or a draw was saved: the round number of
    its game went up by one, its players are in the same order. *)
Lemma round_over_fields (w w1 : World) (g g1 : Game) (cur : PlayerRef)
    (move : string) :
  ask w g cur move = RoundOver w1 g1 →
  players g1 = players g ∧ round_num g1 = round_num g + 1.
Proof.
  unfold ask. destruct (bool_decide _); [done |].
  destruct (move_guard _ _ _ _) as [[[[] b] h] | e]; [| done..].
  unfold after_move.
  destruct (truthy _).
  - destruct (add_score_at _ _) as [[[] | e] wa]; [| done].
    destruct (getitem _ _); [| done].
    match goal with |- context [Game_save ?a ?b] =>
      pose proof (Game_save_fields a b) as (Hp & Hr & _);
      destruct (Game_save a b) as [[[[] | e] ws] gs] end; [| done].
    intros [= <- <-]. simpl in Hp, Hr. by rewrite Hp, Hr.
  - destruct (is_full _); [| done].
    destruct (add_score_all _ _) as [[[] | e] wa]; [| done].
    match goal with |- context [Game_save ?a ?b] =>
      pose proof (Game_save_fields a b) as (Hp & Hr & _);
      destruct (Game_save a b) as [[[[] | e] ws] gs] end; [| done].
    intros [= <- <-]. simpl in Hp, Hr. by rewrite Hp, Hr.
Qed.

(** C6.  After a round that ended by a win or a draw, the game built for
    an accepted rematch has an empty board, the two players in reverse
    order, the first of them with marker X and the second with marker O,
    both with an empty list of moves and with the score and name they
    had, and a round number one above that of the round just played; the
    loop of [Game.start] goes on in that game with its first player. *)
Theorem rematch_rebinds_in_reverse (w w1 : World) (g g1 : Game)
    (cur r1 r2 : PlayerRef) (move : string) :
  ask w g cur move = RoundOver w1 g1 →
  players g = [r1; r2] →
  r1 ≠ r2 →
  board (rematch w1 g1).2 = ∅
  ∧ players (rematch w1 g1).2 = [r2; r1]
  ∧ winner (rematch w1 g1).2 = None
  ∧ round_num (rematch w1 g1).2 = round_num g + 1
  ∧ marker (deref (heap (rematch w1 g1).1) r2) = MarkX
  ∧ marker (deref (heap (rematch w1 g1).1) r1) = MarkO
  ∧ (∀ r, moves (deref (heap (rematch w1 g1).1) r) = []
          ∧ score (deref (heap (rematch w1 g1).1) r) = score (deref (heap w1) r)
          ∧ name (deref (heap (rematch w1 g1).1) r) = name (deref (heap w1) r))
  ∧ file (rematch w1 g1).1 = file w1
  ∧ (∀ k enter rest picks,
       cycle_next (players g) k = Ok cur →
       rounds (move :: enter :: rest) (0%nat :: picks) w g k =
       rounds rest picks (rematch w1 g1).1 (rematch w1 g1).2 0).
Proof.
  intros Hask Hplayers Hne.
  destruct (round_over_fields _ _ _ _ _ _ Hask) as [Hp1 Hr1].
  rewrite Hplayers in Hp1.
  assert (Hrematch : rematch w1 g1 =
    (with_heap w1
       (assign (assign (heap w1) r2
                  (set_marker (Player_reset_moves (deref (heap w1) r2)) MarkX))
          r1 (set_marker (Player_reset_moves
                            (deref (assign (heap w1) r2
                               (set_marker (Player_reset_moves
                                              (deref (heap w1) r2)) MarkX))
                               r1)) MarkO)),
     with_players (Game_init (round_num g1)) [r2; r1])).
  { unfold rematch. by rewrite Hp1. }
  split_and!; try (rewrite Hrematch; simpl; done).
  - rewrite Hrematch. simpl. by destruct r1, r2.
  - rewrite Hrematch. simpl. by destruct r1, r2.
  - intros r. rewrite Hrematch. simpl. by destruct r1, r2, r.
  - intros k enter rest picks Hcur. cbn [rounds]. rewrite Hcur, Hask.
    rewrite Hrematch at 1. simpl. by rewrite Hrematch.
Qed.

Local Open Scope string_scope.

Lemma rematch_rebinds_in_reverse_witness :
  players (rematch world_won game_won).2 = [player2; player1]
  ∧ round_num (rematch world_won game_won).2 = 2
  ∧ marker (obj2 (heap (rematch world_won game_won).1)) = MarkX
  ∧ marker (obj1 (heap (rematch world_won game_won).1)) = MarkO
  ∧ score (obj1 (heap (rematch world_won game_won).1)) = 1
  ∧ score (obj2 (heap (rematch world_won game_won).1)) = 0.
Proof.
  destruct (rematch_rebinds_in_reverse
              (world_after alice_about_to_win) world_won
              (game_after alice_about_to_win) game_won
              player1 player1 player2 "3")
    as (Hboard & Hplayers & Hwinner & Hround & HX & HO & Hkeep & Hfile
        & Hloop).
  - reflexivity.
  - reflexivity.
  - discriminate.
  - split; [exact Hplayers |]. split; [exact Hround |].
    split; [exact HX |]. split; [exact HO |].
    split; [exact (proj1 (proj2 (Hkeep player1)))
           | exact (proj1 (proj2 (Hkeep player2)))].
Defined.

Local Close Scope string_scope.

(** ** The board and the lists of moves *)

Lemma elem_of_add_move (p : Player) (cell c : Z) :
  c ∈ moves (Player_add_move p cell) ↔ c ∈ moves p ∨ c = cell.
Proof.
  simpl. rewrite merge_sort_Permutation, elem_of_app, list_elem_of_singleton.
  done.
Qed.

Lemma NoDup_add_move (p : Player) (cell : Z) :
  NoDup (moves p) → cell ∉ moves p → NoDup (moves (Player_add_move p cell)).
Proof.
  intros Hnd Hnew. simpl. rewrite merge_sort_Permutation.
  apply NoDup_app. split_and!; [done | | apply NoDup_singleton].
  intros x Hx Hx'. apply list_elem_of_singleton in Hx' as ->. done.
Qed.

Lemma Sorted_add_move (p : Player) (cell : Z) :
  StronglySorted Z.le (moves (Player_add_move p cell)).
Proof. simpl. apply StronglySorted_merge_sort; apply _. Qed.

Lemma agrees_members (b : gmap Z Marker) (h : Heap) (r : PlayerRef) (c : Z) :
  agrees b h → c ∈ moves (deref h r) → is_Some (b !! c).
Proof. intros Hag Hc. rewrite (agrees_marker b h Hag r c Hc). eauto. Qed.

Lemma agrees_fresh : ∀ h, moves (obj1 h) = [] → moves (obj2 h) = [] →
  agrees ∅ h.
Proof.
  intros h H1 H2. split.
  - rewrite H1, H2. set_solver.
  - rewrite H1. by intros c Hc%elem_of_nil.
  - intros []; simpl; [rewrite H1 | rewrite H2]; apply NoDup_nil_2.
  - intros [] c; simpl; [rewrite H1 | rewrite H2]; by intros Hc%elem_of_nil.
Qed.

(** One call of [Board.add_move] keeps the agreement, and leaves names,
    markers and scores alone. *)
Lemma add_move_agrees (b b' : gmap Z Marker) (h h' : Heap) (cell : Z)
    (r : PlayerRef) (ok : bool) :
  agrees b h →
  Board_add_move b h cell r = (ok, b', h') →
  agrees b' h'
  ∧ ∀ r', marker (deref h' r') = marker (deref h r').
Proof.
  intros Hag Hcall. destruct ok.
  - apply add_move_true in Hcall as (Hfree & -> & ->).
    assert (Hnew : ∀ r', cell ∉ moves (deref h r')).
    { intros r' Hin. apply (agrees_members _ _ _ _ Hag) in Hin.
      rewrite Hfree in Hin. by destruct Hin. }
    split; [| by destruct r, r'].
    split.
    + rewrite dom_insert_L, (agrees_dom b h Hag). apply set_eq. intros c.
      destruct r; simpl; rewrite !elem_of_union, !elem_of_list_to_set,
        merge_sort_Permutation, elem_of_app, list_elem_of_singleton,
        elem_of_singleton; tauto.
    + intros c. pose proof (agrees_disjoint b h Hag c) as Hdis.
      pose proof (Hnew player1) as Hn1. pose proof (Hnew player2) as Hn2.
      destruct r; simpl in *; rewrite merge_sort_Permutation, elem_of_app,
        list_elem_of_singleton;
        [intros [? | ->] ? | intros ? [? | ->]]; eauto.
    + intros r'. destruct (decide (r = r')) as [<- | Hne].
      * rewrite deref_assign_eq. apply NoDup_add_move; [| apply Hnew].
        apply (agrees_nodup b h Hag).
      * rewrite deref_assign_ne by done. apply (agrees_nodup b h Hag).
    + intros r' c. destruct (decide (r = r')) as [<- | Hne].
      * rewrite deref_assign_eq, elem_of_add_move. simpl.
        intros [Hc | ->]; [| by rewrite lookup_insert_eq].
        rewrite lookup_insert_ne.
        -- by apply (agrees_marker b h Hag).
        -- intros <-. by apply (Hnew r).
      * rewrite deref_assign_ne by done. intros Hc.
        rewrite lookup_insert_ne.
        -- by apply (agrees_marker b h Hag).
        -- intros <-. by apply (Hnew r').
  - by apply add_move_false in Hcall as (-> & -> & _).
Qed.

Lemma add_moves_agrees (calls : list (Z * PlayerRef)) (b : gmap Z Marker)
    (h : Heap) :
  agrees b h →
  agrees (add_moves calls b h).1 (add_moves calls b h).2
  ∧ ∀ r, marker (deref (add_moves calls b h).2 r) = marker (deref h r).
Proof.
  revert b h. induction calls as [|[cell r] calls IH]; intros b h Hag;
    [done |].
  unfold add_moves. simpl. fold (add_moves calls).
  destruct (Board_add_move b h cell r) as [[ok b'] h'] eqn:Hcall.
  destruct (add_move_agrees _ _ _ _ _ _ _ Hag Hcall) as [Hag' Hmark].
  destruct (IH b' h' Hag') as [IH1 IH2]. unfold add_moves in IH1, IH2.
  split; [done |]. intros r'. by rewrite IH2.
Qed.

(** C10.  From an empty board and two players without moves, after any
    run of [Board.add_move] calls for these two players: the cells of the
    board are those of the first player's list together with those of the
    second's, no cell is in both lists or twice in one, and each occupied
    cell carries the marker of the player whose list holds it. *)
Theorem board_agrees_with_move_lists (h : Heap)
    (calls : list (Z * PlayerRef)) :
  moves (obj1 h) = [] →
  moves (obj2 h) = [] →
  dom (add_moves calls ∅ h).1 =
    list_to_set (moves (obj1 (add_moves calls ∅ h).2))
    ∪ list_to_set (moves (obj2 (add_moves calls ∅ h).2))
  ∧ (∀ c, ¬ (c ∈ moves (obj1 (add_moves calls ∅ h).2)
             ∧ c ∈ moves (obj2 (add_moves calls ∅ h).2)))
  ∧ (∀ r, NoDup (moves (deref (add_moves calls ∅ h).2 r)))
  ∧ (∀ r c, c ∈ moves (deref (add_moves calls ∅ h).2 r) →
            (add_moves calls ∅ h).1 !! c
            = Some (marker (deref (add_moves calls ∅ h).2 r)))
  ∧ (∀ r, marker (deref (add_moves calls ∅ h).2 r) = marker (deref h r))
  ∧ size (add_moves calls ∅ h).1 =
      (length (moves (obj1 (add_moves calls ∅ h).2))
       + length (moves (obj2 (add_moves calls ∅ h).2)))%nat.
Proof.
  intros H1 H2.
  destruct (add_moves_agrees calls ∅ h (agrees_fresh h H1 H2)) as [Hag Hmark].
  destruct Hag as [Hdom Hdis Hnd Hmk].
  split_and!; [done | | done | done | done |].
  - intros c [Hc1 Hc2]. by apply (Hdis c).
  - rewrite <- size_dom, Hdom, size_union.
    + rewrite !size_list_to_set; [done | apply (Hnd player2)
                                 | apply (Hnd player1)].
    + intros c Hc1%elem_of_list_to_set Hc2%elem_of_list_to_set.
      by apply (Hdis c).
Qed.

Lemma board_agrees_with_move_lists_witness :
  dom (add_moves [(5, player1); (1, player2); (5, player2); (9, player1)]
         ∅ (heap world0)).1 = ({[5; 9]} ∪ {[1]} : gset Z)
  ∧ (add_moves [(5, player1); (1, player2); (5, player2); (9, player1)]
       ∅ (heap world0)).1 !! 9 = Some MarkX.
Proof.
  destruct (board_agrees_with_move_lists (heap world0)
              [(5, player1); (1, player2); (5, player2); (9, player1)])
    as (Hdom & Hdis & Hnd & Hmk & Hkeep & Hsize).
  - reflexivity.
  - reflexivity.
  - split.
    + rewrite Hdom. vm_compute moves. set_solver.
    + rewrite (Hmk player1 9).
      * by rewrite (Hkeep player1).
      * vm_compute moves. set_solver.
Defined.

(** ** States that a session reaches *)

Lemma elem_of_nine_cells (c : Z) : c ∈ nine_cells ↔ 1 ≤ c ≤ 9.
Proof.
  unfold nine_cells. set_unfold. lia.
Qed.

Lemma size_nine_cells : size nine_cells = 9%nat.
Proof.
  unfold nine_cells. rewrite size_list_to_set; [done |].
  apply (bool_decide_unpack _). by vm_compute.
Qed.

Lemma cells_within_nine (b : gmap Z Marker) :
  (∀ c, is_Some (b !! c) → 1 ≤ c ≤ 9) → dom b ⊆ nine_cells.
Proof.
  intros Hcells c Hc. apply elem_of_nine_cells, Hcells.
  by apply elem_of_dom.
Qed.

Lemma agrees_ext (b : gmap Z Marker) (h h' : Heap) :
  agrees b h →
  (∀ r, moves (deref h' r) = moves (deref h r)) →
  (∀ r, marker (deref h' r) = marker (deref h r)) →
  agrees b h'.
Proof.
  intros [Hdom Hdis Hnd Hmk] Hmoves Hmarker.
  pose proof (Hmoves player1) as Hm1. pose proof (Hmoves player2) as Hm2.
  simpl in Hm1, Hm2. split.
  - by rewrite Hm1, Hm2.
  - rewrite Hm1, Hm2. apply Hdis.
  - intros r. rewrite Hmoves. apply Hnd.
  - intros r c. rewrite Hmoves, Hmarker. apply Hmk.
Qed.

Lemma add_score_all_effect (rs : list PlayerRef) (w : World) :
  (add_score_all rs w).1 = Ok tt
  ∧ ∀ r, moves (deref (heap (add_score_all rs w).2) r)
           = moves (deref (heap w) r)
         ∧ marker (deref (heap (add_score_all rs w).2) r)
           = marker (deref (heap w) r).
Proof.
  revert w. induction rs as [|r0 rs IH]; intros w; [done |].
  cbn [add_score_all]. rewrite add_score_at_eq.
  destruct (IH {| heap := assign (heap w) r0 (incr_score (deref (heap w) r0));
                  file := {| scores := upsert (name (deref (heap w) r0))
                                         (scores (file w));
                             history := history (file w) |};
                  now := now w |}) as [IH1 IH2].
  split; [done |]. intros r. destruct (IH2 r) as [-> ->]. simpl.
  by destruct r0, r.
Qed.

(** After a move is placed, what follows in the loop's body touches
    neither the board nor any list of moves nor any marker. *)
Lemma after_move_effect (w : World) (g : Game) (cur : PlayerRef) :
  board (outcome_game (after_move w g cur)) = board g
  ∧ players (outcome_game (after_move w g cur)) = players g
  ∧ ∀ r, moves (deref (heap (outcome_world (after_move w g cur))) r)
           = moves (deref (heap w) r)
         ∧ marker (deref (heap (outcome_world (after_move w g cur))) r)
           = marker (deref (heap w) r).
Proof.
  unfold after_move. destruct (truthy _).
  - rewrite add_score_at_eq. destruct (getitem _ _).
    + match goal with |- context [Game_save ?a ?b] =>
        pose proof (Game_save_fields a b) as (Hp & _ & Hb & _ & Hh);
        destruct (Game_save a b) as [[[[] | e] ws] gs] end;
        simpl in *; rewrite Hp, Hb, Hh;
        (split_and!; [done | done |]); intros r; by destruct cur, r.
    + simpl. split_and!; [done | done |]. intros r; by destruct cur, r.
  - destruct (is_full _); [| done].
    destruct (add_score_all_effect (players g) w) as [Hok Hsame].
    destruct (add_score_all (players g) w) as [res wa]. simpl in Hok, Hsame.
    subst res.
    match goal with |- context [Game_save ?a ?b] =>
      pose proof (Game_save_fields a b) as (Hp & _ & Hb & _ & Hh);
      destruct (Game_save a b) as [[[[] | e] ws] gs] end;
      simpl in *; by rewrite Hp, Hb, Hh.
Qed.

(** What one line at the prompt does to the board and the lists of moves:
    nothing, or one successful [Board.add_move] on a cell from 1 to 9 for
    the player asked. *)
Lemma ask_effect (w : World) (g : Game) (cur : PlayerRef) (move : string) :
  players (outcome_game (ask w g cur move)) = players g
  ∧ ((board (outcome_game (ask w g cur move)) = board g
      ∧ ∀ r, moves (deref (heap (outcome_world (ask w g cur move))) r)
               = moves (deref (heap w) r)
             ∧ marker (deref (heap (outcome_world (ask w g cur move))) r)
               = marker (deref (heap w) r))
     ∨ ∃ cell h',
         1 ≤ cell ≤ 9
         ∧ Board_add_move (board g) (heap w) cell cur
           = (true, board (outcome_game (ask w g cur move)), h')
         ∧ ∀ r, moves (deref (heap (outcome_world (ask w g cur move))) r)
                  = moves (deref h' r)
                ∧ marker (deref (heap (outcome_world (ask w g cur move))) r)
                  = marker (deref h' r)).
Proof.
  unfold ask. destruct (bool_decide _); [by split; [| left] |].
  destruct (move_guard _ _ _ _) as [[[[] b] h] | e] eqn:Hguard;
    [| | by split; [| left]].
  - apply move_guard_true in Hguard as (cell & _ & _ & Hrange & Hadd).
    destruct (after_move_effect (with_heap w h) (with_board g b) cur)
      as (Hb & Hp & Hsame).
    split; [done |]. right. exists cell, h. rewrite Hb. done.
  - apply move_guard_false in Hguard as (-> & -> & _).
    simpl. split; [done |]. left. done.
Qed.

Lemma inv_session (name1 name2 : string) (f : Store) (clock : Z)
    (w : World) (g : Game) :
  new_session name1 name2 f clock = Some (w, g) → game_inv w g.
Proof.
  unfold new_session. destruct (bool_decide _); [done |].
  destruct (bool_decide _); [done |]. intros [= <- <-]. split; simpl.
  - by exists player1, player2.
  - intros c [m Hm]. by rewrite lookup_empty in Hm.
  - by apply agrees_fresh.
  - intros []; constructor.
Qed.

Lemma inv_ask (w : World) (g : Game) (cur : PlayerRef) (move : string) :
  game_inv w g →
  game_inv (outcome_world (ask w g cur move)) (outcome_game (ask w g cur move)).
Proof.
  intros [Hplayers Hcells Hag Hsorted].
  destruct (ask_effect w g cur move)
    as [Hp [[Hb Hsame] | (cell & h' & Hrange & Hadd & Hsame)]].
  - split.
    + by rewrite Hp.
    + by rewrite Hb.
    + rewrite Hb. apply (agrees_ext _ _ _ Hag); intros r; apply Hsame.
    + intros r. destruct (Hsame r) as [-> _]. apply Hsorted.
  - destruct (add_move_agrees _ _ _ _ _ _ _ Hag Hadd) as [Hag' Hmark].
    apply add_move_true in Hadd as (Hfree & Hb & ->). split.
    + by rewrite Hp.
    + rewrite Hb. intros c. rewrite lookup_insert.
      destruct (decide (cell = c)) as [<- | Hne]; [done | apply Hcells].
    + apply (agrees_ext _ _ _ Hag'); intros r; apply Hsame.
    + intros r. destruct (Hsame r) as [-> _].
      destruct (decide (cur = r)) as [<- | Hne].
      * rewrite deref_assign_eq. apply Sorted_add_move.
      * rewrite deref_assign_ne by done. apply Hsorted.
Qed.

Lemma inv_rematch (w : World) (g : Game) :
  game_inv w g → game_inv (rematch w g).1 (rematch w g).2.
Proof.
  intros [(r1 & r2 & Hp & Hne) _ _ _]. unfold rematch. rewrite Hp. simpl.
  split; simpl.
  - by exists r2, r1.
  - intros c [m Hm]. by rewrite lookup_empty in Hm.
  - apply agrees_fresh; by destruct r1, r2.
  - intros r. destruct r1, r2, r; done || constructor.
Qed.

Lemma reachable_inv (ph : phase) (w : World) (g : Game) :
  reachable ph w g → game_inv w g.
Proof.
  induction 1 as [n1 n2 f clock w g Hnew
                 | w g cur move w' g' _ IH _ Hask
                 | w g cur move w' g' _ IH _ Hask
                 | w g cur move w' g' _ IH _ Hask
                 | w g _ IH].
  - by eapply inv_session.
  - pose proof (inv_ask w g cur move IH) as Hinv. by rewrite Hask in Hinv.
  - pose proof (inv_ask w g cur move IH) as Hinv. by rewrite Hask in Hinv.
  - pose proof (inv_ask w g cur move IH) as Hinv. by rewrite Hask in Hinv.
  - by apply inv_rematch.
Qed.

Lemma moved_winner (w w' : World) (g g' : Game) (cur : PlayerRef)
    (move : string) :
  ask w g cur move = Moved w' g' → winner g' = winner g.
Proof.
  unfold ask. destruct (bool_decide _); [done |].
  destruct (move_guard _ _ _ _) as [[[[] b] h] | e]; [| done..].
  unfold after_move. destruct (truthy _).
  - destruct (add_score_at _ _) as [[[] | e] wa]; [| done].
    destruct (getitem _ _); [| done].
    by destruct (Game_save _ _) as [[[[] | e] ws] gs].
  - destruct (is_full _); [| by intros [= <- <-]].
    destruct (add_score_all _ _) as [[[] | e] wa]; [| done].
    by destruct (Game_save _ _) as [[[[] | e] ws] gs].
Qed.

(** While a round is being played its game has no winner, and its two
    players are two different objects. *)
Lemma playing_no_winner (ph : phase) (w : World) (g : Game) :
  reachable ph w g → ph = Playing →
  winner g = None ∧ ∃ r1 r2, players g = [r1; r2] ∧ r1 ≠ r2.
Proof.
  intros Hreach Hph.
  split; [| apply (inv_players w g (reachable_inv ph w g Hreach))].
  induction Hreach as [n1 n2 f clock w g Hnew
                      | w g cur move w' g' _ IH _ Hask
                      | w g cur move w' g' _ IH _ Hask
                      | w g cur move w' g' _ IH _ Hask
                      | w g _ IH].
  - unfold new_session in Hnew. destruct (bool_decide _); [done |].
    destruct (bool_decide _); [done |]. by injection Hnew as <- <-.
  - apply rejected_changes_nothing in Hask as [_ ->]. by apply IH.
  - rewrite (moved_winner _ _ _ _ _ _ Hask). by apply IH.
  - done.
  - unfold rematch. by destruct (rebind_all _ _ _).
Qed.

(** A call of [Board.add_move] keeps every occupied cell and its marker. *)
Lemma add_move_keeps_cells (b : gmap Z Marker) (h : Heap) (cell : Z)
    (r : PlayerRef) (c : Z) (m : Marker) :
  b !! c = Some m → (Board_add_move b h cell r).1.2 !! c = Some m.
Proof.
  intros Hc. unfold Board_add_move.
  destruct (b !! cell) eqn:Hcell; simpl; [done |].
  rewrite lookup_insert_ne; [done | congruence].
Qed.

Lemma ask_keeps_cells (w : World) (g : Game) (cur : PlayerRef)
    (move : string) (c : Z) (m : Marker) :
  board g !! c = Some m →
  board (outcome_game (ask w g cur move)) !! c = Some m.
Proof.
  intros Hc. destruct (ask_effect w g cur move)
    as [_ [[Hb _] | (cell & h' & _ & Hadd & _)]].
  - by rewrite Hb.
  - pose proof (add_move_keeps_cells (board g) (heap w) cell cur c m Hc)
      as Hkeep. by rewrite Hadd in Hkeep.
Qed.

(** C7.  In every state that a session reaches: the board has at most 9
    entries; [is_full] holds iff it has exactly 9, that is iff each of the
    cells 1 to 9 is occupied; each player's list of moves is sorted in
    ascending order and without repetition; and whatever is typed next,
    and whichever [Board.add_move] call is made, an occupied cell stays
    occupied by the same marker. *)
Theorem reachable_board_invariants (ph : phase) (w : World) (g : Game) :
  reachable ph w g →
  (size (board g) ≤ 9)%nat
  ∧ (is_full (board g) = true ↔ size (board g) = 9%nat)
  ∧ (is_full (board g) = true ↔ ∀ c, 1 ≤ c ≤ 9 → is_Some (board g !! c))
  ∧ (∀ r, StronglySorted Z.le (moves (deref (heap w) r))
          ∧ NoDup (moves (deref (heap w) r)))
  ∧ (∀ cur move c m, board g !! c = Some m →
       board (outcome_game (ask w g cur move)) !! c = Some m)
  ∧ (∀ cell r c m, board g !! c = Some m →
       (Board_add_move (board g) (heap w) cell r).1.2 !! c = Some m).
Proof.
  intros Hreach. destruct (reachable_inv ph w g Hreach)
    as [_ Hcells Hag Hsorted].
  pose proof (cells_within_nine (board g) Hcells) as Hsub.
  assert (Hsize : (size (board g) ≤ 9)%nat).
  { rewrite <- size_dom, <- size_nine_cells. by apply subseteq_size. }
  assert (Hfull : is_full (board g) = true ↔ size (board g) = 9%nat).
  { unfold is_full. apply bool_decide_eq_true. }
  split_and!; [done | done | | | |].
  - rewrite Hfull. split.
    + intros H9 c Hc. apply elem_of_dom.
      assert (Heq : dom (board g) = nine_cells).
      { apply set_subseteq_size_eq; [done |].
        rewrite size_nine_cells, size_dom. lia. }
      rewrite Heq. by apply elem_of_nine_cells.
    + intros Hall. apply Nat.le_antisymm; [done |].
      rewrite <- size_dom, <- size_nine_cells. apply subseteq_size.
      intros c Hc%elem_of_nine_cells. by apply elem_of_dom, Hall.
  - intros r. split; [apply Hsorted | apply (agrees_nodup _ _ Hag)].
  - intros cur move c m. apply ask_keeps_cells.
  - intros cell r c m. apply add_move_keeps_cells.
Qed.

Local Open Scope string_scope.

Lemma reachable_board_invariants_witness :
  reachable Playing (world_after ["5"; "1"]) (game_after ["5"; "1"])
  ∧ (size (board (game_after ["5"; "1"])) ≤ 9)%nat
  ∧ StronglySorted Z.le (moves (obj1 (heap (world_after ["5"; "1"])))).
Proof.
  assert (Hreach : reachable Playing (world_after ["5"; "1"])
                     (game_after ["5"; "1"])).
  { apply (reach_moved (world_after ["5"]) (game_after ["5"]) player2 "1").
    - apply (reach_moved world0 game0 player1 "5").
      + apply (reach_session "alice" "bob" empty_store 1700000000).
        reflexivity.
      + apply list_elem_of_here.
      + reflexivity.
    - apply list_elem_of_further, list_elem_of_here.
    - reflexivity. }
  split; [exact Hreach |].
  destruct (reachable_board_invariants Playing _ _ Hreach)
    as (Hsize & Hfull & Hall & Hsorted & Hkeep & Hkeep').
  split; [exact Hsize | exact (proj1 (Hsorted player1))].
Defined.

Local Close Scope string_scope.

(** ** Names *)

Lemma append_assoc (s1 s2 s3 : string) :
  ((s1 +:+ s2) +:+ s3 = s1 +:+ (s2 +:+ s3))%string.
Proof.
  induction s1 as [|c s1 IH]; [reflexivity |].
  change (String c ((s1 +:+ s2) +:+ s3) = String c (s1 +:+ (s2 +:+ s3)))%string.
  by rewrite IH.
Qed.

(** White space has no case: [title] and [lower] leave it as it is. *)
Lemma space_char_uncased (c : ascii) :
  PyStr.is_space_char c = true →
  PyStr.lower_char c = c
  ∧ PyStr.title_char c = String c EmptyString
  ∧ PyStr.is_cased c = false.
Proof.
  destruct c as [[] [] [] [] [] [] [] []]; vm_compute; intros H;
    (discriminate H || done).
Qed.

Lemma title_from_blank (previous_is_cased : bool) (blank : string) :
  PyStr.all_chars PyStr.is_space_char blank = true →
  PyStr.title_from previous_is_cased blank = blank.
Proof.
  revert previous_is_cased. induction blank as [|c blank IH]; intros b Hall;
    [done |].
  simpl in Hall. apply andb_true_iff in Hall as [Hc Hall].
  destruct (space_char_uncased c Hc) as (Hlow & Htitle & Hcased).
  cbn [PyStr.title_from]. rewrite Hlow, Htitle, Hcased, (IH _ Hall).
  by destruct b.
Qed.

Lemma title_from_append_blank (previous_is_cased : bool)
    (s blank : string) :
  PyStr.all_chars PyStr.is_space_char blank = true →
  PyStr.title_from previous_is_cased (s +:+ blank) =
  (PyStr.title_from previous_is_cased s +:+ blank)%string.
Proof.
  intros Hall. revert previous_is_cased.
  induction s as [|c s IH]; intros b.
  - by apply title_from_blank.
  - change (String c s +:+ blank)%string with (String c (s +:+ blank)).
    cbn [PyStr.title_from]. rewrite IH. symmetry. apply append_assoc.
Qed.

Local Open Scope string_scope.

(** C8 (as amended).  The name of a [Player] is the string given,
    title-cased and not trimmed: white space in front of it and behind
    it stays, and a name made of white space only stays as it is.  In
    [main], the empty string alone is replaced by "Player 1" or "Player 2"
    before the [Player] is built. *)
Theorem session_names_title_cased (name1 name2 : string) (f : Store)
    (clock : Z) (w : World) (g : Game) :
  new_session name1 name2 f clock = Some (w, g) →
  name (obj1 (heap w)) =
    PyStr.title (if bool_decide (name1 = "") then "Player 1" else name1)
  ∧ name (obj2 (heap w)) =
    PyStr.title (if bool_decide (name2 = "") then "Player 2" else name2)
  ∧ PyStr.title "Player 1" = "Player 1"
  ∧ PyStr.title "Player 2" = "Player 2"
  ∧ (∀ raw m, name (Player_init raw m) = PyStr.title raw)
  ∧ (∀ blank, PyStr.all_chars PyStr.is_space_char blank = true →
       PyStr.title blank = blank)
  ∧ (∀ c raw, PyStr.is_space_char c = true →
       PyStr.title (String c raw) = String c (PyStr.title raw))
  ∧ (∀ raw blank, PyStr.all_chars PyStr.is_space_char blank = true →
       PyStr.title (raw +:+ blank) = PyStr.title raw +:+ blank).
Proof.
  unfold new_session. destruct (bool_decide _); [done |].
  destruct (bool_decide _); [done |]. intros [= <- <-]. simpl.
  split_and!.
  - by destruct name1.
  - by destruct name2.
  - reflexivity.
  - reflexivity.
  - done.
  - intros blank. apply title_from_blank.
  - intros c raw Hc. unfold PyStr.title. cbn [PyStr.title_from].
    destruct (space_char_uncased c Hc) as (_ & -> & ->). done.
  - intros raw blank. apply title_from_append_blank.
Qed.

Lemma session_names_title_cased_witness :
  name (obj1 (heap world0)) = "Alice" ∧ name (obj2 (heap world0)) = "Bob".
Proof.
  destruct (session_names_title_cased "alice" "bob" empty_store 1700000000
              world0 game0 eq_refl) as (H1 & H2 & _).
  split; [exact H1 | exact H2].
Defined.

(** C8, the claim as written fails: the name " bob " keeps its spaces, and
    a name of three spaces is kept, not replaced by "Player 1". *)
Lemma name_is_not_trimmed :
  name (Player_init " bob " MarkO) = " Bob "
  ∧ name (Player_init " bob " MarkO) ≠ PyStr.title (PyStr.strip " bob ")
  ∧ PyStr.strip "   " = ""
  ∧ ∃ w g, new_session "   " "bob" empty_store 1700000000 = Some (w, g)
           ∧ name (obj1 (heap w)) = "   "
           ∧ name (obj1 (heap w)) ≠ "Player 1".
Proof.
  split; [reflexivity |]. split; [by vm_compute |]. split; [reflexivity |].
  eexists _, _. split; [reflexivity |]. split; [reflexivity | by vm_compute].
Qed.

Local Close Scope string_scope.

(** ** The stop word, in any case *)

Lemma lower_char_stop_letters (c : ascii) :
  (PyStr.lower_char c = "?"%char → c = "?"%char)
  ∧ (PyStr.lower_char c = "s"%char → c = "s"%char ∨ c = "S"%char)
  ∧ (PyStr.lower_char c = "t"%char → c = "t"%char ∨ c = "T"%char)
  ∧ (PyStr.lower_char c = "o"%char → c = "o"%char ∨ c = "O"%char)
  ∧ (PyStr.lower_char c = "p"%char → c = "p"%char ∨ c = "P"%char).
Proof.
  destruct c as [[] [] [] [] [] [] [] []]; vm_compute;
    repeat split; intros H; (discriminate H || auto).
Qed.

(** The lines that [move.lower() == "?stop"] lets through are the sixteen
    spellings of the stop word in upper and lower case. *)
Lemma stop_word_any_case (move : string) :
  PyStr.lower move = "?stop"%string ↔
  ∃ s t o p : ascii,
    move = String "?" (String s (String t (String o (String p EmptyString))))
    ∧ (s = "s" ∨ s = "S")%char ∧ (t = "t" ∨ t = "T")%char
    ∧ (o = "o" ∨ o = "O")%char ∧ (p = "p" ∨ p = "P")%char.
Proof.
  split.
  - destruct move as [|q [|s [|t [|o [|p [|x rest]]]]]]; try done.
    intros [= Hq Hs Ht Ho Hp].
    apply (lower_char_stop_letters q) in Hq as ->.
    exists s, t, o, p. split; [done |].
    split; [by apply (lower_char_stop_letters s) |].
    split; [by apply (lower_char_stop_letters t) |].
    split; [by apply (lower_char_stop_letters o) |].
    by apply (lower_char_stop_letters p).
  - intros (s & t & o & p & -> & [-> | ->] & [-> | ->] & [-> | ->]
            & [-> | ->]); reflexivity.
Qed.

(** * Further properties of the engine *)

(** ** Resetting the store *)

(** [reset_data] with no argument empties both tables, with "Leaderboard"
    the scores only, with "History" the history only; with any other
    argument it raises [ValueError] and the file is what it was. *)
Theorem reset_data_by_target (specific_data : option string) (f : Store) :
  (specific_data = None →
     reset_data specific_data f = (Ok tt, empty_store))
  ∧ (specific_data = Some "Leaderboard"%string →
     reset_data specific_data f
     = (Ok tt, {| scores := []; history := history f |}))
  ∧ (specific_data = Some "History"%string →
     reset_data specific_data f
     = (Ok tt, {| scores := scores f; history := [] |}))
  ∧ (∀ data, specific_data = Some data →
       data ≠ "Leaderboard"%string → data ≠ "History"%string →
       reset_data specific_data f = (Raise ValueError, f)).
Proof.
  split_and!.
  - by intros ->.
  - by intros ->.
  - by intros ->.
  - intros data -> Hl Hh. destruct f as [sc hi].
    unfold reset_data, with_dbopen, through_cursor, reset_block. simpl.
    rewrite !bool_decide_eq_false_2 by done. done.
Qed.

(** Resetting the scores and then the history, in either order, is the
    reset of both; a reset done twice is the reset done once. *)
Theorem reset_data_composes (f : Store) (target : option string) :
  (reset_data (Some "History"%string)
     (reset_data (Some "Leaderboard"%string) f).2).2
  = (reset_data None f).2
  ∧ (reset_data (Some "Leaderboard"%string)
       (reset_data (Some "History"%string) f).2).2
    = (reset_data None f).2
  ∧ (reset_data target (reset_data target f).2).2 = (reset_data target f).2.
Proof.
  split_and!; [done | done |].
  destruct target as [data |]; [| done].
  unfold reset_data, with_dbopen, through_cursor, reset_block. simpl.
  destruct (bool_decide (data = "Leaderboard"%string)); [done |].
  destruct (bool_decide (data = "History"%string)); done.
Qed.

(** After a reset of the scores, alone or with the history, the next
    point of a player is stored as a single row with count 1, whatever
    the table held before. *)
Theorem first_point_after_reset (p : Player) (f : Store)
    (target : option string) :
  target = None ∨ target = Some "Leaderboard"%string →
  (Player_add_score p (reset_data target f).2).1.1 = Ok tt
  ∧ scores (Player_add_score p (reset_data target f).2).2 = [(name p, 1)]
  ∧ history (Player_add_score p (reset_data target f).2).2
    = history (reset_data target f).2.
Proof.
  intros Htarget.
  destruct (add_score_file p (reset_data target f).2) as (-> & _ & ->).
  by destruct Htarget as [-> | ->].
Qed.

Lemma first_point_after_reset_witness :
  scores (Player_add_score bob (reset_data None bob_has_won_twice).2).2
  = [("Bob"%string, 1)].
Proof.
  apply (first_point_after_reset bob bob_has_won_twice None). by left.
Defined.

(** ** A move that is placed *)

Lemma check_winner_truthy (p : Player) :
  (truthy (check_winner p) = true →
   ∃ combo, combo ∈ winning_combos
            ∧ check_winner p = VTuple [VBool true; tuple_of combo])
  ∧ (truthy (check_winner p) = false → check_winner p = VBool false).
Proof.
  unfold check_winner.
  destruct (check_combos_cases winning_combos (moves p))
    as [-> | (combo & Hin & ->)]; split; try done.
  intros _. by exists combo.
Qed.

Lemma after_move_eq (w : World) (g : Game) (cur r1 r2 : PlayerRef) :
  players g = [r1; r2] →
  after_move w g cur =
  if truthy (check_winner (deref (heap w) cur)) then
    RoundOver (Game_save (add_score_at w cur).2 (with_winner g cur)).1.2
              (Game_save (add_score_at w cur).2 (with_winner g cur)).2
  else if is_full (board g) then
    RoundOver (Game_save (add_score_all (players g) w).2 g).1.2
              (Game_save (add_score_all (players g) w).2 g).2
  else Moved w g.
Proof.
  intros Hplayers. unfold after_move.
  destruct (truthy _) eqn:Hwon.
  - apply check_winner_truthy in Hwon as (combo & _ & ->).
    rewrite add_score_at_eq. simpl.
    by rewrite (Game_save_eq _ (with_winner g cur) r1 r2).
  - destruct (is_full _); [| done].
    destruct (add_score_all_effect (players g) w) as [Hok _].
    destruct (add_score_all (players g) w) as [res wa]. simpl in Hok.
    subst res. simpl. by rewrite (Game_save_eq _ g r1 r2).
Qed.

Lemma move_guard_valid (b : gmap Z Marker) (h : Heap) (cur : PlayerRef)
    (move : string) (cell : Z) :
  PyStr.isdigit move = true → int move = Ok cell → 1 ≤ cell ≤ 9 →
  b !! cell = None →
  move_guard b h cur move =
  Ok (true, <[cell := marker (deref h cur)]> b,
      assign h cur (Player_add_move (deref h cur) cell)).
Proof.
  intros Hdigit Hint Hrange Hfree. unfold move_guard.
  rewrite Hdigit, Hint. simpl.
  replace ((1 <=? cell) && (cell <=? 9)) with true
    by (symmetry; apply andb_true_iff; lia).
  unfold Board_add_move. by rewrite Hfree.
Qed.

Lemma ask_valid (w : World) (g : Game) (cur : PlayerRef) (move : string)
    (cell : Z) :
  PyStr.lower move ≠ "?stop"%string →
  PyStr.isdigit move = true → int move = Ok cell → 1 ≤ cell ≤ 9 →
  board g !! cell = None →
  ask w g cur move =
  after_move
    (with_heap w (assign (heap w) cur
                    (Player_add_move (deref (heap w) cur) cell)))
    (with_board g (<[cell := marker (deref (heap w) cur)]> (board g))) cur.
Proof.
  intros Hstop Hdigit Hint Hrange Hfree. unfold ask.
  rewrite bool_decide_eq_false_2 by done.
  by rewrite (move_guard_valid _ _ _ _ cell).
Qed.

(** The players of a game of two are asked in turn, the first one at the
    even positions of the cycle. *)
Lemma cycle_next_two (r1 r2 : PlayerRef) (k : nat) :
  cycle_next [r1; r2] k = Ok (if Nat.even k then r1 else r2).
Proof.
  unfold cycle_next. simpl length.
  destruct (Nat.even k) eqn:Heven.
  - apply Nat.even_spec in Heven as [m ->].
    replace (2 * m)%nat with (0 + m * 2)%nat by lia.
    by rewrite Nat.Div0.mod_add.
  - assert (Hodd : Nat.odd k = true)
      by (by rewrite <- Nat.negb_even, Heven).
    apply Nat.odd_spec in Hodd as [m ->].
    replace (2 * m + 1)%nat with (1 + m * 2)%nat by lia.
    by rewrite Nat.Div0.mod_add.
Qed.

(** A move that completes one of the eight combinations ends the round
    as a win, also when it fills the board: the player who moved, and no
    other, has one more point; the scores table went through the upsert
    for that player's name only; one history row names the winner; the
    round number went up by one. *)
Theorem winning_move_ends_round (w : World) (g : Game)
    (cur r1 r2 : PlayerRef) (move : string) (cell : Z) (combo : list Z) :
  PyStr.lower move ≠ "?stop"%string →
  PyStr.isdigit move = true →
  int move = Ok cell →
  1 ≤ cell ≤ 9 →
  board g !! cell = None →
  check_winner (Player_add_move (deref (heap w) cur) cell)
    = VTuple [VBool true; tuple_of combo] →
  players g = [r1; r2] →
  ∃ w' g',
    ask w g cur move = RoundOver w' g'
    ∧ score (deref (heap w') cur) = score (deref (heap w) cur) + 1
    ∧ (∀ r, r ≠ cur → score (deref (heap w') r) = score (deref (heap w) r))
    ∧ winner g' = Some cur
    ∧ history (file w') = history (file w) ++
        [ {| h_player1 := name (deref (heap w) r1);
             h_player2 := name (deref (heap w) r2);
             h_winner := Some (name (deref (heap w) cur));
             h_timestamp := now w |} ]
    ∧ scores (file w') = upsert (name (deref (heap w) cur)) (scores (file w))
    ∧ round_num g' = round_num g + 1.
Proof.
  intros Hstop Hdigit Hint Hrange Hfree Hwin Hplayers.
  rewrite (ask_valid w g cur move cell) by done.
  rewrite (after_move_eq _ _ cur r1 r2) by done.
  simpl. rewrite deref_assign_eq, Hwin. simpl.
  rewrite add_score_at_eq. simpl.
  rewrite (Game_save_eq _ _ r1 r2) by done. simpl.
  eexists _, _. split; [reflexivity |]. simpl. split_and!.
  - by destruct cur.
  - intros r Hr. by destruct cur, r.
  - done.
  - by destruct r1, r2, cur.
  - by destruct cur.
  - done.
Qed.

Lemma winning_move_ends_round_witness :
  ∃ w' g',
    ask (world_after eight_moves_then_diagonal)
        (game_after eight_moves_then_diagonal) player1 "9"
      = RoundOver w' g'
    ∧ score (obj1 (heap w')) = 1
    ∧ score (obj2 (heap w')) = 0
    ∧ scores (file w') = [("Alice"%string, 1)]
    ∧ h_winner <$> history (file w') = [Some "Alice"%string].
Proof.
  destruct (winning_move_ends_round
              (world_after eight_moves_then_diagonal)
              (game_after eight_moves_then_diagonal)
              player1 player1 player2 "9" 9 [1; 5; 9])
    as (w' & g' & Hask & Hscore & Hother & Hwinner & Hhist & Hscores
        & Hround).
  - by vm_compute.
  - reflexivity.
  - reflexivity.
  - lia.
  - reflexivity.
  - reflexivity.
  - reflexivity.
  - exists w', g'. split; [exact Hask |]. split; [exact Hscore |].
    split; [exact (Hother player2 ltac:(discriminate)) |].
    split; [exact Hscores |]. rewrite Hhist. reflexivity.
Defined.

(** A valid move that neither wins nor fills the board passes the turn:
    the cell is marked, the player's list is extended and sorted, nothing
    is written to the store, and the next line is asked of the other
    player. *)
Theorem valid_move_passes_turn (w : World) (g : Game)
    (cur r1 r2 : PlayerRef) (move : string) (cell : Z) (k : nat)
    (rest : list string) (picks : list nat) :
  PyStr.lower move ≠ "?stop"%string →
  PyStr.isdigit move = true →
  int move = Ok cell →
  1 ≤ cell ≤ 9 →
  board g !! cell = None →
  (size (board g) < 8)%nat →
  check_winner (Player_add_move (deref (heap w) cur) cell) = VBool false →
  players g = [r1; r2] →
  r1 ≠ r2 →
  cycle_next (players g) k = Ok cur →
  ∃ w' g',
    ask w g cur move = Moved w' g'
    ∧ board g' = <[cell := marker (deref (heap w) cur)]> (board g)
    ∧ moves (deref (heap w') cur)
      = merge_sort Z.le (moves (deref (heap w) cur) ++ [cell])
    ∧ (∀ r, r ≠ cur → deref (heap w') r = deref (heap w) r)
    ∧ (∀ r, score (deref (heap w') r) = score (deref (heap w) r))
    ∧ file w' = file w
    ∧ round_num g' = round_num g
    ∧ winner g' = winner g
    ∧ rounds (move :: rest) picks w g k = rounds rest picks w' g' (S k)
    ∧ cycle_next (players g') (S k) = Ok (other cur).
Proof.
  intros Hstop Hdigit Hint Hrange Hfree Hsize Hnowin Hplayers Hne Hcur.
  assert (Hask : ask w g cur move =
    Moved (with_heap w (assign (heap w) cur
                          (Player_add_move (deref (heap w) cur) cell)))
          (with_board g (<[cell := marker (deref (heap w) cur)]> (board g)))).
  { rewrite (ask_valid w g cur move cell) by done.
    rewrite (after_move_eq _ _ cur r1 r2) by done.
    simpl. rewrite deref_assign_eq, Hnowin. simpl.
    unfold is_full. rewrite bool_decide_eq_false_2; [done |].
    rewrite map_size_insert_None by done. lia. }
  eexists _, _. split; [exact Hask |]. simpl. split_and!; try done.
  - by rewrite deref_assign_eq.
  - intros r Hr. by rewrite deref_assign_ne.
  - intros r. by destruct cur, r.
  - cbn [rounds]. by rewrite Hcur, Hask.
  - rewrite Hplayers in Hcur |- *. rewrite cycle_next_two in Hcur |- *.
    rewrite Nat.even_succ, <- Nat.negb_even.
    destruct (Nat.even k); injection Hcur as <-; by destruct r1, r2.
Qed.

Lemma valid_move_passes_turn_witness :
  ∃ w' g',
    ask world0 game0 player1 "5" = Moved w' g'
    ∧ board g' = {[5 := MarkX]}
    ∧ file w' = empty_store
    ∧ cycle_next (players g') 1 = Ok player2.
Proof.
  destruct (valid_move_passes_turn world0 game0 player1 player1 player2
              "5" 5 0 [] [])
    as (w' & g' & Hask & Hboard & Hmoves & Hother & Hscore & Hfile & Hround
        & Hwinner & Hrounds & Hnext).
  - by vm_compute.
  - reflexivity.
  - reflexivity.
  - lia.
  - reflexivity.
  - vm_compute. lia.
  - reflexivity.
  - reflexivity.
  - discriminate.
  - reflexivity.
  - exists w', g'. split; [exact Hask |]. split; [exact Hboard |].
    split; [exact Hfile | exact Hnext].
Defined.

(** ** When the prompt raises *)









(** ** Whole sessions *)

Lemma draw_scoreboard_two (g : Game) (r1 r2 : PlayerRef) :
  players g = [r1; r2] → draw_scoreboard g = Ok tt.
Proof. intros Hp. unfold draw_scoreboard, player_at. by rewrite Hp. Qed.

(** What holds of the state before [rounds], is kept by every line that
    satisfies [L] and by a rematch, holds of the state in which [rounds]
    ends; and [rounds] ends with no other exception than those that
    running out of input and the prompt give. *)
Lemma rounds_invariant (I : World → Game → Prop) (E : exn → Prop)
    (L : string → Prop) :
  E EOFError →
  (∀ w g, I w g → ∃ r1 r2, players g = [r1; r2]) →
  (∀ w g cur move, I w g → L move → cur ∈ players g →
     I (outcome_world (ask w g cur move)) (outcome_game (ask w g cur move))
     ∧ ∀ e w' g', ask w g cur move = Failed e w' g' → E e) →
  (∀ w g, I w g → I (rematch w g).1 (rematch w g).2) →
  ∀ lines picks w g k, Forall L lines → I w g →
    I (ending_world (rounds lines picks w g k))
      (ending_game (rounds lines picks w g k))
    ∧ ∀ e w' g', rounds lines picks w g k = Crashed e w' g' → E e.
Proof.
  intros HE Htwo Hstep Hrematch lines.
  induction lines as [lines IH] using (induction_ltof1 _ (@length string)).
  unfold ltof in IH. intros picks w g k Hlines HI.
  destruct (Htwo w g HI) as (r1 & r2 & Hp).
  destruct (cycle_next_nonempty (players g) k) as [cur Hcur];
    [by rewrite Hp |].
  pose proof (cycle_next_elem _ _ _ Hcur) as Hin.
  destruct lines as [|move rest]; cbn [rounds]; rewrite Hcur.
  { simpl. split; [done |]. by intros e w' g' [= <- _ _]. }
  apply Forall_cons in Hlines as [Hmove Hrest].
  destruct (Hstep w g cur move HI Hmove Hin) as [HI' Hfail].
  destruct (ask w g cur move) as [w1 g1 | w1 g1 | w1 g1 | w1 g1 | e1 w1 g1];
    simpl in HI'.
  - simpl. by split.
  - apply IH; [simpl; lia | done | done].
  - apply IH; [simpl; lia | done | done].
  - destruct rest as [|enter rest1].
    { simpl. split; [done |]. by intros e w' g' [= <- _ _]. }
    destruct picks as [|index picks1].
    { simpl. split; [done |]. by intros e w' g' [= <- _ _]. }
    destruct (index =? 0)%nat; [| by simpl].
    pose proof (Hrematch w1 g1 HI') as HI2.
    destruct (rematch w1 g1) as [w2 g2]. simpl in HI2.
    destruct (Htwo w2 g2 HI2) as (s1 & s2 & Hp2).
    rewrite (draw_scoreboard_two g2 s1 s2 Hp2).
    apply Forall_cons in Hrest as [_ Hrest1].
    apply IH; [simpl; lia | done | done].
  - simpl. split; [done |]. intros e w' g' [= <- <- <-].
    by apply (Hfail e1 w1 g1).
Qed.

Lemma inv_two_players (w : World) (g : Game) :
  game_inv w g → ∃ r1 r2, players g = [r1; r2].
Proof. intros [(r1 & r2 & Hp & _) _ _ _]. eauto. Qed.



(** ** The books of a session *)

Lemma stored_upsert (n m : string) (rows : list (string * Z)) :
  stored n (upsert m rows) =
  stored n rows + (if bool_decide (m = n) then 1 else 0).
Proof.
  unfold stored, upsert. destruct (has_name m rows) eqn:Hhas.
  - destruct (decide (m = n)) as [-> | Hne].
    + rewrite bool_decide_eq_true_2 by done. rewrite score_of_bump.
      destruct (score_of n rows) eqn:Hn; [done |].
      apply has_name_score_of in Hn. congruence.
    + rewrite bool_decide_eq_false_2 by done.
      rewrite score_of_bump_other by done. lia.
  - rewrite score_of_append. simpl.
    destruct (decide (m = n)) as [-> | Hne].
    + rewrite bool_decide_eq_true_2 by done.
      apply has_name_score_of in Hhas. by rewrite Hhas.
    + rewrite bool_decide_eq_false_2 by done.
      destruct (score_of n rows); simpl; lia.
Qed.

Lemma points_incr (n : string) (h : Heap) (r : PlayerRef) :
  points n (assign h r (incr_score (deref h r))) =
  points n h + (if bool_decide (name (deref h r) = n) then 1 else 0).
Proof.
  unfold points. destruct r; simpl;
    destruct (bool_decide (name (obj1 h) = n));
    destruct (bool_decide (name (obj2 h) = n)); lia.
Qed.

Lemma points_ext (n : string) (h h' : Heap) :
  (∀ r, name (deref h' r) = name (deref h r)
        ∧ score (deref h' r) = score (deref h r)) →
  points n h' = points n h.
Proof.
  intros Hsame. unfold points.
  destruct (Hsame player1) as [Hn1 Hs1]. destruct (Hsame player2) as [Hn2 Hs2].
  simpl in *. by rewrite Hn1, Hn2, Hs1, Hs2.
Qed.

Lemma si_ext (w0 w w' : World) (g g' : Game) :
  session_inv w0 w g →
  file w' = file w → now w' = now w →
  (∀ r, name (deref (heap w') r) = name (deref (heap w) r)
        ∧ score (deref (heap w') r) = score (deref (heap w) r)) →
  round_num g' = round_num g →
  session_inv w0 w' g'.
Proof.
  intros [Hnames Hnow Hscores Hrows] Hfile Hclock Hsame Hround. split.
  - intros r. destruct (Hsame r) as [-> _]. apply Hnames.
  - by rewrite Hclock.
  - intros n. rewrite Hfile, (points_ext n _ _ Hsame). apply Hscores.
  - by rewrite Hfile, Hround.
Qed.

Lemma si_add_score (w0 w : World) (g : Game) (r : PlayerRef) :
  session_inv w0 w g → session_inv w0 (add_score_at w r).2 g.
Proof.
  intros [Hnames Hnow Hscores Hrows]. rewrite add_score_at_eq. split; simpl.
  - intros r'. rewrite <- Hnames. by destruct r, r'.
  - done.
  - intros n. rewrite stored_upsert, points_incr.
    pose proof (Hscores n). lia.
  - done.
Qed.

Lemma si_add_score_all (w0 w : World) (g : Game) (rs : list PlayerRef) :
  session_inv w0 w g → session_inv w0 (add_score_all rs w).2 g.
Proof.
  revert w. induction rs as [|r rs IH]; intros w Hinv; [done |].
  cbn [add_score_all]. pose proof (si_add_score w0 w g r Hinv) as Hnext.
  rewrite add_score_at_eq in Hnext |- *. by apply IH.
Qed.

Lemma si_save (w0 w : World) (g : Game) (r1 r2 : PlayerRef) :
  players g = [r1; r2] → r1 ≠ r2 →
  session_inv w0 w g →
  session_inv w0 (Game_save w g).1.2 (Game_save w g).2.
Proof.
  intros Hplayers Hne [Hnames Hnow Hscores (rows & Hhist & Hlen & Hall)].
  rewrite (Game_save_eq w g r1 r2 Hplayers). split; simpl; try done.
  exists (rows ++
    [ {| h_player1 := name (deref (heap w) r1);
         h_player2 := name (deref (heap w) r2);
         h_winner := (λ r, name (deref (heap w) r)) <$> winner g;
         h_timestamp := now w |} ]).
  split_and!.
  - by rewrite Hhist, app_assoc.
  - rewrite length_app. simpl. lia.
  - apply Forall_app. split; [done |]. apply Forall_singleton.
    unfold session_row. simpl. rewrite !Hnames. split_and!; [done | |].
    + destruct r1, r2; simpl; auto; done.
    + pose proof (Hnames player1) as H1. pose proof (Hnames player2) as H2.
      simpl in H1, H2.
      destruct (winner g) as [[] |]; simpl; rewrite ?H1, ?H2; auto.
Qed.

Lemma si_after_move (w0 w : World) (g : Game) (cur r1 r2 : PlayerRef) :
  players g = [r1; r2] → r1 ≠ r2 →
  session_inv w0 w g →
  session_inv w0 (outcome_world (after_move w g cur))
    (outcome_game (after_move w g cur)).
Proof.
  intros Hplayers Hne Hinv. rewrite (after_move_eq w g cur r1 r2 Hplayers).
  destruct (truthy _); [| destruct (is_full _)]; simpl.
  - apply (si_save _ _ _ r1 r2); [done | done |].
    apply (si_ext w0 (add_score_at w cur).2 _ g); try done.
    by apply si_add_score.
  - apply (si_save _ _ _ r1 r2); [done | done |]. by apply si_add_score_all.
  - done.
Qed.

Lemma si_ask (w0 w : World) (g : Game) (cur : PlayerRef) (move : string) :
  game_inv w g → session_inv w0 w g →
  session_inv w0 (outcome_world (ask w g cur move))
    (outcome_game (ask w g cur move)).
Proof.
  intros [(r1 & r2 & Hplayers & Hne) _ _ _] Hinv. unfold ask.
  destruct (bool_decide _); [done |].
  destruct (move_guard _ _ _ _) as [[[[] b] h] | e] eqn:Hguard; [| | done].
  - apply move_guard_true in Hguard as (cell & _ & _ & _ & Hadd).
    apply add_move_true in Hadd as (_ & _ & ->).
    apply (si_after_move _ _ _ _ r1 r2); [done | done |].
    apply (si_ext w0 w _ g); try done. intros r. simpl. by destruct cur, r.
  - apply move_guard_false in Hguard as (-> & -> & _). simpl.
    by rewrite with_heap_same, with_board_same.
Qed.

Lemma si_rematch (w0 w : World) (g : Game) :
  game_inv w g → session_inv w0 w g →
  session_inv w0 (rematch w g).1 (rematch w g).2.
Proof.
  intros [(r1 & r2 & Hplayers & Hne) _ _ _] Hinv.
  unfold rematch. rewrite Hplayers. simpl.
  apply (si_ext w0 w _ g); try done. intros r. simpl.
  by destruct r1, r2, r.
Qed.

Lemma si_start (w0 : World) (g0 : Game) :
  round_num g0 = 1 → session_inv w0 w0 g0.
Proof.
  intros Hround. split; try done.
  exists []. rewrite app_nil_r, Hround. by split_and!.
Qed.

(** The books are kept all through a session. *)
Lemma session_inv_end (name1 name2 : string) (f : Store) (clock : Z)
    (w : World) (g : Game) (lines : list string) (picks : list nat) :
  new_session name1 name2 f clock = Some (w, g) →
  session_inv w (ending_world (Game_start lines picks w g))
    (ending_game (Game_start lines picks w g))
  ∧ file w = f ∧ now w = clock ∧ ∀ n, points n (heap w) = 0.
Proof.
  intros Hnew. pose proof (inv_session _ _ _ _ _ _ Hnew) as Hinv.
  assert (Hfresh : round_num g = 1 ∧ file w = f ∧ now w = clock
                   ∧ ∀ n, points n (heap w) = 0).
  { unfold new_session in Hnew. destruct (bool_decide _); [done |].
    destruct (bool_decide _); [done |]. injection Hnew as <- <-.
    split_and!; try done. intros n. unfold points. simpl.
    by destruct (bool_decide _), (bool_decide _). }
  destruct Hfresh as (Hround & Hfile & Hclock & Hzero).
  split; [| done].
  destruct (inv_two_players w g Hinv) as (r1 & r2 & Hp).
  unfold Game_start. rewrite (draw_scoreboard_two g r1 r2 Hp).
  destruct (rounds_invariant
              (λ w' g', game_inv w' g' ∧ session_inv w w' g')
              (λ _, True) (λ _, True)) with (lines := lines) (picks := picks)
              (w := w) (g := g) (k := 0%nat) as [[_ Hend] _].
  - done.
  - intros w' g' [HI _]. by apply (inv_two_players w').
  - intros w' g' cur move [HI HS] _ _. split; [| done].
    split; [by apply inv_ask | by apply si_ask].
  - intros w' g' [HI HS]. split; [by apply inv_rematch | by apply si_rematch].
  - by apply Forall_true.
  - split; [done | by apply si_start].
  - exact Hend.
Qed.

(** Over a whole session, whatever is typed: for every name, the count in
    the scores table at the end is the count at the beginning plus the
    points that the players of that name hold in memory; and the players
    bear at the end the names they were given. *)
Theorem session_scores_balance (name1 name2 : string) (f : Store)
    (clock : Z) (w : World) (g : Game) (lines : list string)
    (picks : list nat) :
  new_session name1 name2 f clock = Some (w, g) →
  (∀ n, stored n (scores (file (ending_world (Game_start lines picks w g))))
        = stored n (scores f)
          + points n (heap (ending_world (Game_start lines picks w g))))
  ∧ (∀ r, name (deref (heap (ending_world (Game_start lines picks w g))) r)
          = name (deref (heap w) r)).
Proof.
  intros Hnew.
  destruct (session_inv_end _ _ _ _ _ _ lines picks Hnew)
    as ([Hnames _ Hscores _] & <- & _ & Hzero).
  split; [| done]. intros n. pose proof (Hscores n) as Hn.
  rewrite Hzero in Hn. lia.
Qed.


Lemma session_scores_balance_witness :
  stored "Alice"%string
    (scores (file (ending_world
       (Game_start (eight_moves ++ ["9"; ""; "5"; "?stop"]%string) [0%nat]
          (with_file world0 bob_has_won_twice) game0)))) = 2
  ∧ stored "Bob"%string
      (scores (file (ending_world
         (Game_start (eight_moves ++ ["9"; ""; "5"; "?stop"]%string) [0%nat]
            (with_file world0 bob_has_won_twice) game0)))) = 3.
Proof.
  pose proof (session_scores_balance "alice" "bob" bob_has_won_twice
                1700000000 (with_file world0 bob_has_won_twice) game0
                (eight_moves ++ ["9"; ""; "5"; "?stop"]%string) [0%nat]
                eq_refl) as [Hbalance _].
  split.
  - rewrite (Hbalance "Alice"%string). reflexivity.
  - rewrite (Hbalance "Bob"%string). reflexivity.
Defined.


(** ** More on the states that a session reaches *)

Lemma size_le_nine (w : World) (g : Game) :
  game_inv w g → (size (board g) ≤ 9)%nat.
Proof.
  intros [_ Hcells _ _]. rewrite <- size_dom, <- size_nine_cells.
  by apply subseteq_size, cells_within_nine.
Qed.

Lemma moved_facts (w w' : World) (g g' : Game) (cur : PlayerRef)
    (move : string) :
  ask w g cur move = Moved w' g' →
  truthy (check_winner (deref (heap w') cur)) = false
  ∧ is_full (board g') = false
  ∧ file w' = file w
  ∧ ∀ r, r ≠ cur → deref (heap w') r = deref (heap w) r.
Proof.
  unfold ask. destruct (bool_decide _); [done |].
  destruct (move_guard _ _ _ _) as [[[[] b] h] | e] eqn:Hguard; [| done..].
  apply move_guard_true in Hguard as (cell & _ & _ & _ & Hadd).
  apply add_move_true in Hadd as (_ & _ & ->).
  unfold after_move. destruct (truthy _) eqn:Hwon.
  - destruct (add_score_at _ _) as [[[] | e] wa]; [| done].
    destruct (getitem _ _); [| done].
    by destruct (Game_save _ _) as [[[[] | e] ws] gs].
  - destruct (is_full _) eqn:Hfull.
    + destruct (add_score_all _ _) as [[[] | e] wa]; [| done].
      by destruct (Game_save _ _) as [[[[] | e] ws] gs].
    + intros [= <- <-]. simpl. split_and!; try done.
      intros r Hr. by rewrite deref_assign_ne.
Qed.

Lemma check_winner_no_moves (p : Player) :
  moves p = [] → check_winner p = VBool false.
Proof. unfold check_winner. by intros ->. Qed.

(** While a round is being played the board is not full and neither
    player has a combination. *)
Lemma playing_open (ph : phase) (w : World) (g : Game) :
  reachable ph w g → ph = Playing →
  (size (board g) < 9)%nat
  ∧ ∀ r, check_winner (deref (heap w) r) = VBool false.
Proof.
  intros Hreach.
  induction Hreach as [n1 n2 f clock w g Hnew
                      | w g cur move w' g' Hreach IH _ Hask
                      | w g cur move w' g' Hreach IH _ Hask
                      | w g cur move w' g' Hreach IH _ Hask
                      | w g Hreach IH]; intros Hph.
  - unfold new_session in Hnew. destruct (bool_decide _); [done |].
    destruct (bool_decide _); [done |]. injection Hnew as <- <-.
    split; [simpl; rewrite map_size_empty; lia | by intros []].
  - apply rejected_changes_nothing in Hask as [-> ->]. by apply IH.
  - destruct (IH Hph) as [_ IHwin].
    assert (Hinv : game_inv w' g').
    { pose proof (inv_ask w g cur move (reachable_inv _ _ _ Hreach)) as H.
      by rewrite Hask in H. }
    apply moved_facts in Hask as (Hwon & Hfull & _ & Hother).
    split.
    + pose proof (size_le_nine w' g' Hinv) as Hle.
      unfold is_full in Hfull. apply bool_decide_eq_false in Hfull. lia.
    + intros r. destruct (decide (r = cur)) as [-> | Hne].
      * by apply check_winner_truthy.
      * rewrite (Hother r Hne). apply IHwin.
  - done.
  - destruct (reachable_inv _ _ _ Hreach) as [(r1 & r2 & Hp & Hne) _ _ _].
    unfold rematch. rewrite Hp. simpl.
    split; [rewrite map_size_empty; lia |].
    intros r. apply check_winner_no_moves. by destruct r1, r2, r.
Qed.

Lemma digit_line_valid (cell : Z) :
  1 ≤ cell ≤ 9 →
  PyStr.lower (digit_line cell) ≠ "?stop"%string
  ∧ PyStr.isdigit (digit_line cell) = true
  ∧ int (digit_line cell) = Ok cell.
Proof.
  intros Hrange.
  assert (cell = 1 ∨ cell = 2 ∨ cell = 3 ∨ cell = 4 ∨ cell = 5 ∨ cell = 6
          ∨ cell = 7 ∨ cell = 8 ∨ cell = 9) as Hcases by lia.
  repeat (destruct Hcases as [-> | Hcases]; [by vm_compute |]).
  subst cell. by vm_compute.
Qed.

(** Whenever a player is asked for a move, a cell from 1 to 9 is free,
    and the line made of its digit is accepted, from either player: the
    turn passes or the round ends. *)
Theorem prompt_has_a_valid_move (w : World) (g : Game) :
  reachable Playing w g →
  (size (board g) < 9)%nat
  ∧ ∃ cell, 1 ≤ cell ≤ 9 ∧ board g !! cell = None
      ∧ ∀ cur, ∃ w' g',
          ask w g cur (digit_line cell) = Moved w' g'
          ∨ ask w g cur (digit_line cell) = RoundOver w' g'.
Proof.
  intros Hreach. destruct (playing_open _ _ _ Hreach eq_refl) as [Hsize _].
  destruct (reachable_inv _ _ _ Hreach) as [(r1 & r2 & Hp & _) Hcells _ _].
  split; [done |].
  assert (Hfree : ∃ cell, cell ∈ nine_cells ∖ dom (board g)).
  { apply size_pos_elem_of.
    rewrite size_difference by (by apply cells_within_nine).
    rewrite size_nine_cells, size_dom. lia. }
  destruct Hfree as [cell [Hnine Hnot]%elem_of_difference].
  apply elem_of_nine_cells in Hnine. apply not_elem_of_dom in Hnot.
  exists cell. split_and!; [lia | lia | done |].
  intros cur. destruct (digit_line_valid cell Hnine) as (Hstop & Hdigit & Hint).
  rewrite (ask_valid w g cur (digit_line cell) cell) by done.
  rewrite (after_move_eq _ _ cur r1 r2) by done.
  destruct (truthy _); [eexists _, _; by right |].
  destruct (is_full _); eexists _, _; [by right | by left].
Qed.

Lemma prompt_has_a_valid_move_witness :
  ∃ cell, 1 ≤ cell ≤ 9 ∧ board (game_after ["5"; "1"]%string) !! cell = None.
Proof.
  destruct (prompt_has_a_valid_move
              (world_after ["5"; "1"]%string) (game_after ["5"; "1"]%string))
    as [_ (cell & Hrange & Hfree & _)].
  - apply (reach_moved (world_after ["5"%string]) (game_after ["5"%string])
             player2 "1"%string).
    + apply (reach_moved world0 game0 player1 "5"%string).
      * apply (reach_session "alice"%string "bob"%string empty_store
                 1700000000). reflexivity.
      * apply list_elem_of_here.
      * reflexivity.
    + apply list_elem_of_further, list_elem_of_here.
    + reflexivity.
  - exists cell. split; [exact Hrange | exact Hfree].
Defined.



Lemma ask_markers (w : World) (g : Game) (cur : PlayerRef) (move : string)
    (r : PlayerRef) :
  marker (deref (heap (outcome_world (ask w g cur move))) r)
  = marker (deref (heap w) r).
Proof.
  destruct (ask_effect w g cur move)
    as [_ [[_ Hsame] | (cell & h' & _ & Hadd & Hsame)]].
  - apply Hsame.
  - destruct (Hsame r) as [_ ->].
    apply add_move_true in Hadd as (_ & _ & ->). by destruct cur, r.
Qed.

Lemma reachable_markers (ph : phase) (w : World) (g : Game) :
  reachable ph w g →
  ∃ r1 r2, players g = [r1; r2] ∧ r1 ≠ r2
    ∧ marker (deref (heap w) r1) = MarkX
    ∧ marker (deref (heap w) r2) = MarkO.
Proof.
  assert (Hstep : ∀ w g cur move,
    (∃ r1 r2, players g = [r1; r2] ∧ r1 ≠ r2
       ∧ marker (deref (heap w) r1) = MarkX
       ∧ marker (deref (heap w) r2) = MarkO) →
    ∃ r1 r2, players (outcome_game (ask w g cur move)) = [r1; r2] ∧ r1 ≠ r2
       ∧ marker (deref (heap (outcome_world (ask w g cur move))) r1) = MarkX
       ∧ marker (deref (heap (outcome_world (ask w g cur move))) r2) = MarkO).
  { intros w0 g0 cur move (r1 & r2 & Hp & Hne & HX & HO).
    exists r1, r2. rewrite !ask_markers.
    by rewrite (proj1 (ask_effect w0 g0 cur move)). }
  induction 1 as [n1 n2 f clock w g Hnew
                 | w g cur move w' g' Hreach IH _ Hask
                 | w g cur move w' g' Hreach IH _ Hask
                 | w g cur move w' g' Hreach IH _ Hask
                 | w g Hreach IH].
  - unfold new_session in Hnew. destruct (bool_decide _); [done |].
    destruct (bool_decide _); [done |]. injection Hnew as <- <-.
    by exists player1, player2.
  - specialize (Hstep w g cur move IH). by rewrite Hask in Hstep.
  - specialize (Hstep w g cur move IH). by rewrite Hask in Hstep.
  - specialize (Hstep w g cur move IH). by rewrite Hask in Hstep.
  - destruct IH as (r1 & r2 & Hp & Hne & _). exists r2, r1.
    unfold rematch. rewrite Hp. simpl. by destruct r1, r2.
Qed.

Lemma agrees_owner (b : gmap Z Marker) (h : Heap) (c : Z) :
  agrees b h → is_Some (b !! c) → ∃ r, c ∈ moves (deref h r).
Proof.
  intros Hag Hc. apply elem_of_dom in Hc.
  rewrite (agrees_dom b h Hag), elem_of_union, !elem_of_list_to_set in Hc.
  destruct Hc as [Hc | Hc]; [by exists player1 | by exists player2].
Qed.

(** In every state that a session reaches, the first player of the game
    holds the marker X and is the one asked first, the second holds O,
    and a cell carries X or O exactly when it is in the list of moves of
    the player who holds that marker. *)
Theorem x_holder_moves_first (ph : phase) (w : World) (g : Game) :
  reachable ph w g →
  ∃ first second,
    players g = [first; second] ∧ first ≠ second
    ∧ marker (deref (heap w) first) = MarkX
    ∧ marker (deref (heap w) second) = MarkO
    ∧ cycle_next (players g) 0 = Ok first
    ∧ (∀ c, board g !! c = Some MarkX ↔ c ∈ moves (deref (heap w) first))
    ∧ (∀ c, board g !! c = Some MarkO ↔ c ∈ moves (deref (heap w) second)).
Proof.
  intros Hreach.
  destruct (reachable_markers _ _ _ Hreach) as (r1 & r2 & Hp & Hne & HX & HO).
  destruct (reachable_inv _ _ _ Hreach) as [_ _ Hag _].
  assert (Hown : ∀ c r m, board g !! c = Some m → marker (deref (heap w) r) = m →
                 c ∈ moves (deref (heap w) r)).
  { intros c r m Hc Hm.
    destruct (agrees_owner _ _ c Hag (mk_is_Some _ _ Hc)) as [r' Hr'].
    destruct (decide (r' = r)) as [-> | Hneq]; [done |].
    pose proof (agrees_marker _ _ Hag r' c Hr') as Hc'.
    rewrite Hc in Hc'. injection Hc' as ->.
    destruct r1, r2, r, r'; congruence. }
  exists r1, r2. split_and!; try done.
  - by rewrite Hp.
  - intros c. split; [intros Hc; by apply (Hown c r1 MarkX) |].
    intros Hc. rewrite <- HX. by apply (agrees_marker _ _ Hag).
  - intros c. split; [intros Hc; by apply (Hown c r2 MarkO) |].
    intros Hc. rewrite <- HO. by apply (agrees_marker _ _ Hag).
Qed.

Lemma x_holder_moves_first_witness :
  ∃ first second,
    players (rematch world_won game_won).2 = [first; second]
    ∧ marker (deref (heap (rematch world_won game_won).1) first) = MarkX
    ∧ first = player2.
Proof.
  destruct (x_holder_moves_first Playing (rematch world_won game_won).1
              (rematch world_won game_won).2)
    as (first & second & Hp & Hne & HX & HO & Hfirst & _).
  - apply reach_rematch.
    apply (reach_over (world_after alice_about_to_win)
             (game_after alice_about_to_win) player1 "3"%string).
    + apply (reach_moved (world_after ["1"; "4"; "2"]%string)
               (game_after ["1"; "4"; "2"]%string) player2 "5"%string).
      * apply (reach_moved (world_after ["1"; "4"]%string)
                 (game_after ["1"; "4"]%string) player1 "2"%string).
        -- apply (reach_moved (world_after ["1"]%string)
                    (game_after ["1"]%string) player2 "4"%string).
           ++ apply (reach_moved world0 game0 player1 "1"%string).
              ** apply (reach_session "alice"%string "bob"%string
                          empty_store 1700000000). reflexivity.
              ** apply list_elem_of_here.
              ** reflexivity.
           ++ apply list_elem_of_further, list_elem_of_here.
           ++ reflexivity.
        -- apply list_elem_of_here.
        -- reflexivity.
      * apply list_elem_of_further, list_elem_of_here.
      * reflexivity.
    + apply list_elem_of_here.
    + reflexivity.
  - exists first, second. split; [exact Hp |]. split; [exact HX |].
    injection Hfirst as <-. reflexivity.
Defined.

(** ** Drawing the board *)

Lemma append_cons (c : ascii) (s1 s2 : string) :
  (String c s1 +:+ s2)%string = String c (s1 +:+ s2)%string.
Proof. reflexivity. Qed.

Lemma length_append (s1 s2 : string) :
  String.length (s1 +:+ s2) = (String.length s1 + String.length s2)%nat.
Proof.
  induction s1 as [|c s1 IH]; [done |].
  rewrite append_cons. cbn [String.length]. by rewrite IH.
Qed.

Lemma substring_prefix (body suf : string) :
  substring 0 (String.length body) (body +:+ suf) = body.
Proof.
  induction body as [|c body IH]; [by destruct suf |].
  rewrite append_cons. cbn [String.length substring]. by rewrite IH.
Qed.

Lemma length_substring (n m : nat) (s : string) :
  String.length (substring n m s) = (m `min` (String.length s - n))%nat.
Proof.
  revert n m. induction s as [|c s IH]; intros [|n] [|m];
    cbn [substring String.length]; rewrite ?IH; lia.
Qed.

(** [normalify] takes off the first five and the last four characters:
    a text between a prefix of five and a suffix of four characters comes
    back as it is, and any text loses nine characters, a text of nine or
    fewer becoming empty. *)
Theorem normalify_strips_wrapper (pre body suf text : string) :
  String.length pre = 5%nat →
  String.length suf = 4%nat →
  normalify (pre +:+ body +:+ suf) = body
  ∧ String.length (normalify text) = (String.length text - 9)%nat
  ∧ ((String.length text ≤ 9)%nat → normalify text = EmptyString).
Proof.
  intros Hpre Hsuf.
  assert (Hlen : String.length (normalify text)
                 = (String.length text - 9)%nat).
  { unfold normalify. rewrite length_substring. lia. }
  split_and!; [| done |].
  - destruct pre as [|c1 [|c2 [|c3 [|c4 [|c5 [|c6 pre]]]]]]; try done.
    unfold normalify. rewrite !append_cons. cbn [String.length].
    change ("" +:+ body +:+ suf)%string with (body +:+ suf)%string.
    rewrite length_append, Hsuf.
    replace (S (S (S (S (S (String.length body + 4))))) - 9)%nat
      with (String.length body) by lia.
    cbn [substring]. apply substring_prefix.
  - intros Hshort. destruct (normalify text); [done |].
    simpl in Hlen. lia.
Qed.

Lemma normalify_strips_wrapper_witness :
  normalify "<red><b>X</b></r>" = "<b>X</b>"%string.
Proof.
  apply (normalify_strips_wrapper "<red>" "<b>X</b>" "</r>" "").
  - reflexivity.
  - reflexivity.
Defined.

Section DrawingFacts.

Variable colored_marker : Marker → string.
Variable greenify : string → string.

Lemma cell_cases (i : Z) :
  1 ≤ i ≤ 9 →
  i = 1 ∨ i = 2 ∨ i = 3 ∨ i = 4 ∨ i = 5 ∨ i = 6 ∨ i = 7 ∨ i = 8 ∨ i = 9.
Proof. lia. Qed.

Lemma highlight_text (f : Z → cell) (index : Z) (s : string) :
  1 ≤ index ≤ 9 → f index = Text s →
  highlight greenify (f <$> cell_numbers) index =
  inr (fn_update f index (Text (greenify (normalify s))) <$> cell_numbers).
Proof.
  intros Hrange Hf. apply cell_cases in Hrange.
  repeat (destruct Hrange as [-> | Hrange]);
    [.. | subst index]; unfold highlight; cbn; rewrite Hf; reflexivity.
Qed.

Lemma highlight_number (f : Z → cell) (index i0 : Z) :
  1 ≤ index ≤ 9 → f index = Number i0 →
  highlight greenify (f <$> cell_numbers) index = inl Draw_TypeError.
Proof.
  intros Hrange Hf. apply cell_cases in Hrange.
  repeat (destruct Hrange as [-> | Hrange]);
    [.. | subst index]; unfold highlight; cbn; rewrite Hf; reflexivity.
Qed.

Lemma highlight_out_of_range (raw : list cell) (index : Z) :
  length raw = 9%nat → index < -8 ∨ 9 < index →
  highlight greenify raw index = inl Draw_IndexError.
Proof.
  intros Hlen Hout. unfold highlight, list_index. rewrite Hlen.
  destruct (Z.leb_spec 0 (index - 1)), (Z.ltb_spec (index - 1) (Z.of_nat 9)),
    (Z.leb_spec (- Z.of_nat 9) (index - 1)), (Z.ltb_spec (index - 1) 0);
    simpl; try done; lia.
Qed.

Lemma table_cell_rows (f : Z → cell) (i : Z) :
  1 ≤ i ≤ 9 → table_cell (table_rows (f <$> cell_numbers)) i = Some (f i).
Proof.
  intros Hrange. apply cell_cases in Hrange.
  repeat (destruct Hrange as [-> | Hrange]); [.. | subst i]; reflexivity.
Qed.

Lemma highlight_three (f : Z → cell) (a b c : Z) (sa sb sc : string) :
  1 ≤ a ≤ 9 → 1 ≤ b ≤ 9 → 1 ≤ c ≤ 9 →
  a ≠ b → a ≠ c → b ≠ c →
  f a = Text sa → f b = Text sb → f c = Text sc →
  highlight_all greenify (f <$> cell_numbers) [a; b; c] =
  inr (fn_update
         (fn_update (fn_update f a (Text (greenify (normalify sa))))
            b (Text (greenify (normalify sb))))
         c (Text (greenify (normalify sc))) <$> cell_numbers).
Proof.
  intros Ha Hb Hc Hab Hac Hbc Hfa Hfb Hfc. cbn [highlight_all].
  rewrite (highlight_text f a sa) by done.
  rewrite (highlight_text _ b sb); [| done |].
  - rewrite (highlight_text _ c sc); [done | done |].
    unfold fn_update. by rewrite !bool_decide_eq_false_2 by done.
  - unfold fn_update. by rewrite bool_decide_eq_false_2 by done.
Qed.

Lemma winning_combo_shape (combo : list Z) :
  combo ∈ winning_combos →
  ∃ a b c, combo = [a; b; c]
    ∧ 1 ≤ a ≤ 9 ∧ 1 ≤ b ≤ 9 ∧ 1 ≤ c ≤ 9 ∧ a ≠ b ∧ a ≠ c ∧ b ≠ c.
Proof.
  unfold winning_combos. intros Hin.
  repeat (apply elem_of_cons in Hin as [-> | Hin];
          [eexists _, _, _; split; [reflexivity | lia] |]).
  by apply elem_of_nil in Hin.
Qed.

Lemma Board_draw_three (b : gmap Z Marker) (a c d : Z) :
  Board_draw colored_marker greenify b (Some [a; c; d]) =
  match highlight_all greenify (raw_cell colored_marker b <$> cell_numbers)
          [a; c; d] with
  | inl e => inl e
  | inr raw => inr (table_rows raw)
  end.
Proof. reflexivity. Qed.

(** [Board.draw] with no combination (or an empty one) gives three rows
    of three cells, the cell [i] standing in row [(i - 1) // 3] and column
    [(i - 1) % 3] and showing its marker when occupied and its own number
    when free.  With a combination that is not empty and not of length 3
    it raises [ValueError]; with a combination whose first cell is free it
    raises [TypeError], and with one whose first index is above 9 or
    below -8 it raises [IndexError]. *)
Theorem draw_table_and_errors (b : gmap Z Marker) (combo : list Z)
    (a c d : Z) :
  Board_draw colored_marker greenify b None
    = inr (table_rows (raw_table colored_marker b))
  ∧ Board_draw colored_marker greenify b (Some [])
    = Board_draw colored_marker greenify b None
  ∧ length (table_rows (raw_table colored_marker b)) = 3%nat
  ∧ Forall (λ row, length row = 3%nat)
      (table_rows (raw_table colored_marker b))
  ∧ (∀ i, 1 ≤ i ≤ 9 →
       table_cell (table_rows (raw_table colored_marker b)) i
       = Some (match b !! i with
               | Some m => Text (colored_marker m)
               | None => Number i
               end))
  ∧ (combo ≠ [] → length combo ≠ 3%nat →
     Board_draw colored_marker greenify b (Some combo) = inl Draw_ValueError)
  ∧ (1 ≤ a ≤ 9 → b !! a = None →
     Board_draw colored_marker greenify b (Some [a; c; d])
     = inl Draw_TypeError)
  ∧ (a < -8 ∨ 9 < a →
     Board_draw colored_marker greenify b (Some [a; c; d])
     = inl Draw_IndexError).
Proof.
  split_and!.
  - reflexivity.
  - reflexivity.
  - reflexivity.
  - repeat constructor.
  - intros i Hi. unfold raw_table. by rewrite table_cell_rows.
  - intros Hne Hlen. unfold Board_draw. simpl.
    destruct combo as [|x combo]; [done |].
    apply Nat.eqb_neq in Hlen. by rewrite Hlen.
  - intros Ha Hfree. rewrite Board_draw_three. cbn [highlight_all].
    rewrite (highlight_number _ a a); [done | done |].
    unfold raw_cell. by rewrite Hfree.
  - intros Hout. rewrite Board_draw_three. cbn [highlight_all].
    by rewrite highlight_out_of_range.
Qed.

(** In a state that a session reaches, drawing the board with the
    combination that [check_winner] returned for a player never raises:
    the three cells of the combination show that player's marker in green,
    with the colour taken off first, and the other cells are shown as in
    the plain table. *)
Theorem draw_winner_highlights (ph : phase) (w : World) (g : Game)
    (r : PlayerRef) (combo : list Z) :
  reachable ph w g →
  check_winner (deref (heap w) r) = VTuple [VBool true; tuple_of combo] →
  ∃ table,
    Board_draw colored_marker greenify (board g) (Some combo) = inr table
    ∧ ∀ i, 1 ≤ i ≤ 9 →
        table_cell table i =
        Some (if bool_decide (i ∈ combo)
              then Text (greenify (normalify
                     (colored_marker (marker (deref (heap w) r)))))
              else raw_cell colored_marker (board g) i).
Proof.
  intros Hreach Hwin.
  destruct (reachable_inv _ _ _ Hreach) as [_ _ Hag _].
  apply check_combos_true in Hwin as (k & Hk & Hall & _).
  apply list_elem_of_lookup_2 in Hk.
  destruct (winning_combo_shape combo Hk)
    as (a & b & c & -> & Ha & Hb & Hc & Hab & Hac & Hbc).
  assert (Hcell : ∀ x, x ∈ [a; b; c] →
            raw_cell colored_marker (board g) x
            = Text (colored_marker (marker (deref (heap w) r)))).
  { intros x Hx. unfold raw_cell.
    rewrite (agrees_marker _ _ Hag r x); [done |].
    by apply (proj1 (all_in_true [a; b; c] _) Hall). }
  eexists. split.
  - rewrite Board_draw_three.
    rewrite (highlight_three _ a b c
               (colored_marker (marker (deref (heap w) r)))
               (colored_marker (marker (deref (heap w) r)))
               (colored_marker (marker (deref (heap w) r))));
      [reflexivity | done | done | done | done | done | done
      | apply Hcell, list_elem_of_here
      | apply Hcell, list_elem_of_further, list_elem_of_here
      | apply Hcell; do 2 apply list_elem_of_further;
        apply list_elem_of_here].
  - intros i Hi. rewrite table_cell_rows by done. unfold fn_update.
    destruct (decide (i = c)) as [-> | Hic].
    { rewrite bool_decide_eq_true_2 by done.
      rewrite (bool_decide_eq_true_2 (c ∈ [a; b; c])); [done |].
      do 2 apply list_elem_of_further. apply list_elem_of_here. }
    rewrite (bool_decide_eq_false_2 (i = c)) by done.
    destruct (decide (i = b)) as [-> | Hib].
    { rewrite bool_decide_eq_true_2 by done.
      rewrite (bool_decide_eq_true_2 (b ∈ [a; b; c])); [done |].
      apply list_elem_of_further, list_elem_of_here. }
    rewrite (bool_decide_eq_false_2 (i = b)) by done.
    destruct (decide (i = a)) as [-> | Hia].
    { rewrite bool_decide_eq_true_2 by done.
      rewrite (bool_decide_eq_true_2 (a ∈ [a; b; c])); [done |].
      apply list_elem_of_here. }
    rewrite (bool_decide_eq_false_2 (i = a)) by done.
    rewrite (bool_decide_eq_false_2 (i ∈ [a; b; c])); [done |].
    intros Hin. apply elem_of_cons in Hin as [Heq | Hin1]; [done |].
    apply elem_of_cons in Hin1 as [Heq | Hin2]; [done |].
    apply elem_of_cons in Hin2 as [Heq | Hin3]; [done |].
    by apply elem_of_nil in Hin3.
Qed.

End DrawingFacts.

Lemma draw_winner_highlights_witness :
  ∃ table,
    Board_draw (λ m, match m with MarkX => "<b>X</b>" | MarkO => "<r>O</r>" end)
      (λ s, "<g>" +:+ s +:+ "</g>") (board game_won) (Some [1; 2; 3])
    = inr table
    ∧ table_cell table 4 = Some (Text "<r>O</r>")
    ∧ table_cell table 6 = Some (Number 6).
Proof.
  destruct (draw_winner_highlights
              (λ m, match m with MarkX => "<b>X</b>" | MarkO => "<r>O</r>" end)
              (λ s, "<g>" +:+ s +:+ "</g>")
              Over world_won game_won player1 [1; 2; 3])
    as (table & Hdraw & Hcells).
  - apply (reach_over (world_after alice_about_to_win)
             (game_after alice_about_to_win) player1 "3"%string).
    + apply (reach_moved (world_after ["1"; "4"; "2"]%string)
               (game_after ["1"; "4"; "2"]%string) player2 "5"%string).
      * apply (reach_moved (world_after ["1"; "4"]%string)
                 (game_after ["1"; "4"]%string) player1 "2"%string).
        -- apply (reach_moved (world_after ["1"]%string)
                    (game_after ["1"]%string) player2 "4"%string).
           ++ apply (reach_moved world0 game0 player1 "1"%string).
              ** apply (reach_session "alice"%string "bob"%string
                          empty_store 1700000000). reflexivity.
              ** apply list_elem_of_here.
              ** reflexivity.
           ++ apply list_elem_of_further, list_elem_of_here.
           ++ reflexivity.
        -- apply list_elem_of_here.
        -- reflexivity.
      * apply list_elem_of_further, list_elem_of_here.
      * reflexivity.
    + apply list_elem_of_here.
    + reflexivity.
  - reflexivity.
  - exists table. split; [exact Hdraw |].
    split; [exact (Hcells 4 ltac:(lia)) | exact (Hcells 6 ltac:(lia))].
Defined.

(** ** Lists of moves and win detection, by themselves *)



(** [Player.add_move] adds exactly the move given and leaves the list
    sorted, whatever order it was in; it does not look for the move in the
    list, so that a move added twice is in the list twice.  Name, marker
    and score are not touched. *)
Theorem add_move_sorts_and_keeps_all (p : Player) (move : Z) :
  moves (Player_add_move p move) ≡ₚ moves p ++ [move]
  ∧ StronglySorted Z.le (moves (Player_add_move p move))
  ∧ length (moves (Player_add_move p move)) = S (length (moves p))
  ∧ (move ∈ moves p → ¬ NoDup (moves (Player_add_move p move)))
  ∧ name (Player_add_move p move) = name p
  ∧ marker (Player_add_move p move) = marker p
  ∧ score (Player_add_move p move) = score p.
Proof.
  assert (Hperm : moves (Player_add_move p move) ≡ₚ moves p ++ [move])
    by apply merge_sort_Permutation.
  split_and!; try done.
  - apply Sorted_add_move.
  - rewrite Hperm, length_app. simpl. lia.
  - intros Hin Hnd. rewrite Hperm in Hnd.
    apply NoDup_app in Hnd as (_ & Hdis & _).
    apply (Hdis move Hin), list_elem_of_here.
Qed.

Lemma all_in_mono (combo l l' : list Z) :
  (∀ c, c ∈ l → c ∈ l') → all_in combo l = true → all_in combo l' = true.
Proof. rewrite !all_in_true. auto. Qed.

Lemma check_combos_mono (combos : list (list Z)) (l l' : list Z) :
  (∀ c, c ∈ l → c ∈ l') →
  truthy (check_combos combos l) = true →
  truthy (check_combos combos l') = true.
Proof.
  intros Hsub. induction combos as [|combo rest IH]; simpl; [done |].
  destruct (all_in combo l) eqn:Hl.
  - by rewrite (all_in_mono combo l l' Hsub Hl).
  - intros Hrest. destruct (all_in combo l'); [done | by apply IH].
Qed.

Lemma check_combos_same_cells (combos : list (list Z)) (l l' : list Z) :
  (∀ c, c ∈ l ↔ c ∈ l') → check_combos combos l = check_combos combos l'.
Proof.
  intros Hsame. induction combos as [|combo rest IH]; simpl; [done |].
  assert (Heq : all_in combo l = all_in combo l').
  { destruct (all_in combo l) eqn:Hl, (all_in combo l') eqn:Hl'; try done.
    - apply (all_in_mono combo l l') in Hl; [congruence |].
      intros c. apply Hsame.
    - apply (all_in_mono combo l' l) in Hl'; [congruence |].
      intros c. apply Hsame. }
  by rewrite Heq, IH.
Qed.

(** Win detection looks only at which cells are in the list: a player
    whose list holds all the cells of another's wins whenever the other
    does, and two lists with the same cells, in whatever order and with
    whatever repetitions, give the same result. *)
Theorem check_winner_by_cells (p p' : Player) :
  (∀ c, c ∈ moves p → c ∈ moves p') →
  (truthy (check_winner p) = true → truthy (check_winner p') = true)
  ∧ ((∀ c, c ∈ moves p' → c ∈ moves p) → check_winner p = check_winner p').
Proof.
  intros Hsub. unfold check_winner. split.
  - by apply check_combos_mono.
  - intros Hsup. apply check_combos_same_cells. intros c. split; auto.
Qed.

Lemma check_winner_by_cells_witness :
  check_winner {| name := "Bob"; marker := MarkO; moves := [9; 1; 5; 5];
                  score := 0 |}
  = VTuple [VBool true; tuple_of [1; 5; 9]].
Proof.
  rewrite <- (proj2 (check_winner_by_cells
                      {| name := "Alice"; marker := MarkX;
                         moves := [1; 5; 9]; score := 3 |}
                      {| name := "Bob"; marker := MarkO;
                         moves := [9; 1; 5; 5]; score := 0 |}
                      ltac:(simpl; intros c;
                            rewrite !elem_of_cons, !elem_of_nil; lia))
                   ltac:(simpl; intros c;
                         rewrite !elem_of_cons, !elem_of_nil; lia)).
  reflexivity.
Defined.
